(** * property-alerts: the listing ingestion and deduplication run

    A shallow embedding of [src/index.ts] (run controller, env validation,
    aggregation, classification, fingerprints), [src/store.ts] (the two
    Redis sets), [src/notifier.ts] (Telegram dispatch) and the retry loop
    of [src/scraper.ts].

    Effects are explicit.  A computation takes the [World] (the Redis
    store and two counters that index the environment's answers) and
    returns a result or a thrown error message, the new world, and the
    list of events it performed, oldest first.

    Modelling scope.
    - A string is kept as the bytes of its UTF-8 encoding.  [trim] and
      the class [\s] treat the white space of the language, ASCII or not.
      The case mapping of [toLowerCase] is modelled for the letters A to
      Z only, which is what it is on the ASCII titles of the examples; the
      theorems hold whatever the lower-cased title is.
    - The Redis client is taken to hand back the members of a set as the
      strings that were added (its deserialisation of a member followed
      by [String] gives the member back, as it does for the ids the
      adapters build).
    - The failures modelled are the ones the source itself raises or
      handles: a Telegram response that is not ok ([sendTelegramMessage]),
      a failing navigation or extraction inside the [try] of
      [scrapeListings], an unparsable or unsupported address, a failed
      env validation.  The Redis client, [fetch] itself and the browser
      launch and close are taken to answer.
    - What the run cannot decide is read from an [Env]: the n-th
      navigation and the n-th POST of a run get the n-th answer.
    - Informational [console.log] output is not part of the trace;
      [console.error] is. *)

From stdpp Require Import gmap strings list pretty.


(* ===================================================================== *)
(** * JavaScript string helpers *)
(* ===================================================================== *)

Module Js.

(** [s.startsWith(p)] *)
Fixpoint startsWith (s p : string) : bool :=
  match p, s with
  | EmptyString, _ => true
  | String a p', String b s' => if decide (a = b) then startsWith s' p' else false
  | String _ _, EmptyString => false
  end.

(** [s.includes(sub)] *)
Fixpoint includes (s sub : string) : bool :=
  startsWith s sub ||
  match s with
  | EmptyString => false
  | String _ s' => includes s' sub
  end.

(** [s.split(sep)] for a non-empty separator: [skip] counts the
    characters of a matched separator still to be dropped, [cur] is the
    piece being read. *)
Fixpoint split_go (sep : string) (skip : nat) (cur s : string) : list string :=
  match s with
  | EmptyString => [cur]
  | String c s' =>
      match skip with
      | S k => split_go sep k cur s'
      | O =>
          if startsWith s sep
          then cur :: split_go sep (String.length sep - 1) EmptyString s'
          else split_go sep 0 (cur +:+ String c EmptyString) s'
      end
  end.
Definition split (s sep : string) : list string := split_go sep 0 EmptyString s.

(** The code of a byte.  A string is kept as the bytes of its UTF-8
    encoding. *)
Definition byte (c : Ascii.ascii) : N := Ascii.N_of_ascii c.

(** The byte is a continuation byte of UTF-8 (0x80 to 0xBF): it is never
    the first byte of a character. *)
Definition continuation (c : Ascii.ascii) : bool :=
  (128 <=? byte c)%N && (byte c <=? 191)%N.

(** The two bytes encode U+00A0 (C2 A0). *)
Definition ws2 (c1 c2 : Ascii.ascii) : bool :=
  (byte c1 =? 0xC2)%N && (byte c2 =? 0xA0)%N.

(** The three bytes encode U+1680 (E1 9A 80), U+2000 to U+200A
    (E2 80 80 to E2 80 8A), U+2028, U+2029, U+202F (E2 80 A8, A9, AF),
    U+205F (E2 81 9F), U+3000 (E3 80 80) or U+FEFF (EF BB BF). *)
Definition ws3 (c1 c2 c3 : Ascii.ascii) : bool :=
  ((byte c1 =? 0xE1)%N && (byte c2 =? 0x9A)%N && (byte c3 =? 0x80)%N)
  || ((byte c1 =? 0xE2)%N && (byte c2 =? 0x80)%N &&
        (((0x80 <=? byte c3)%N && (byte c3 <=? 0x8A)%N)
         || (byte c3 =? 0xA8)%N || (byte c3 =? 0xA9)%N || (byte c3 =? 0xAF)%N))
  || ((byte c1 =? 0xE2)%N && (byte c2 =? 0x81)%N && (byte c3 =? 0x9F)%N)
  || ((byte c1 =? 0xE3)%N && (byte c2 =? 0x80)%N && (byte c3 =? 0x80)%N)
  || ((byte c1 =? 0xEF)%N && (byte c2 =? 0xBB)%N && (byte c3 =? 0xBF)%N).

(** The number of bytes of the white space character [s] starts with, 0
    when it starts with none.  White space is what [trim] strips and the
    class [\s] matches: the [WhiteSpace] and [LineTerminator] characters
    of the language, that is U+0009 to U+000D and U+0020
    ([Ascii.is_space]) and the characters of [ws2] and [ws3]. *)
Definition ws_len (s : string) : nat :=
  match s with
  | String c1 (String c2 (String c3 _)) =>
      if Ascii.is_space c1 then 1
      else if ws2 c1 c2 then 2
      else if ws3 c1 c2 c3 then 3
      else 0
  | String c1 (String c2 EmptyString) =>
      if Ascii.is_space c1 then 1 else if ws2 c1 c2 then 2 else 0
  | String c1 EmptyString => if Ascii.is_space c1 then 1 else 0
  | EmptyString => 0
  end.

(** [x] is one white space character. *)
Definition white_space (x : string) : bool :=
  (0 <? String.length x)%nat && (ws_len x =? String.length x)%nat.

(** [s.trimStart()]; [skip] counts the bytes of a white space character
    still to be dropped. *)
Fixpoint trimStart_go (skip : nat) (s : string) : string :=
  match s with
  | EmptyString => EmptyString
  | String _ s' =>
      match skip with
      | S k => trimStart_go k s'
      | O =>
          match ws_len s with
          | S k => trimStart_go k s'
          | O => s
          end
      end
  end.
Definition trimStart (s : string) : string := trimStart_go 0 s.

(** [s] holds white space only. *)
Fixpoint blank_go (skip : nat) (s : string) : bool :=
  match s with
  | EmptyString => true
  | String _ s' =>
      match skip with
      | S k => blank_go k s'
      | O =>
          match ws_len s with
          | S k => blank_go k s'
          | O => false
          end
      end
  end.

(** [s.trimEnd()]: the string is cut where only white space follows. *)
Fixpoint trimEnd (s : string) : string :=
  match s with
  | EmptyString => EmptyString
  | String c s' => if blank_go 0 s then EmptyString else String c (trimEnd s')
  end.

(** [s.trim()] *)
Definition trim (s : string) : string := trimEnd (trimStart s).

(** [Boolean(s)] on a string: the empty string is falsy. *)
Definition truthy (s : string) : bool :=
  match s with EmptyString => false | _ => true end.

(** The lower case of an ASCII letter; any other byte is kept. *)
Definition lower_ascii (c : Ascii.ascii) : Ascii.ascii :=
  let n := Ascii.nat_of_ascii c in
  if (65 <=? n)%nat && (n <=? 90)%nat then Ascii.ascii_of_nat (n + 32) else c.
(** [s.toLowerCase()] of a string of ASCII characters.  Of another string
    the letters A to Z are lower-cased and the bytes of the other
    characters are kept: their case mapping is not modelled. *)
Fixpoint toLowerCase (s : string) : string :=
  match s with
  | EmptyString => EmptyString
  | String c s' => String (lower_ascii c) (toLowerCase s')
  end.

(** [s.replace(/\s+/g, r)]: every maximal run of white space becomes
    [r].  [skip] counts the bytes of a white space character still to be
    dropped, [in_run] tells that the previous character was white space. *)
Fixpoint replace_ws_go (r : string) (skip : nat) (in_run : bool) (s : string)
  : string :=
  match s with
  | EmptyString => EmptyString
  | String c s' =>
      match skip with
      | S k => replace_ws_go r k in_run s'
      | O =>
          match ws_len s with
          | S k => (if in_run then EmptyString else r) +:+ replace_ws_go r k true s'
          | O => String c (replace_ws_go r 0 false s')
          end
      end
  end.
Definition replace_ws (s r : string) : string := replace_ws_go r 0 false s.

(** [parts.join(sep)] *)
Fixpoint join (sep : string) (parts : list string) : string :=
  match parts with
  | [] => EmptyString
  | [p] => p
  | p :: rest => p +:+ sep +:+ join sep rest
  end.

(** [text.replace(/c/g, r)] for a single character [c]. *)
Fixpoint replace_char (c : Ascii.ascii) (r : string) (s : string) : string :=
  match s with
  | EmptyString => EmptyString
  | String d s' =>
      (if decide (c = d) then r else String d EmptyString) +:+ replace_char c r s'
  end.

Definition newline : string := String (Ascii.ascii_of_nat 10) EmptyString.
Definition dquote : string := String (Ascii.ascii_of_nat 34) EmptyString.
(** The characters [&], [<] and [>]. *)
Definition amp : Ascii.ascii := Ascii.ascii_of_nat 38.
Definition lt : Ascii.ascii := Ascii.ascii_of_nat 60.
Definition gt : Ascii.ascii := Ascii.ascii_of_nat 62.

End Js.

(* ===================================================================== *)
(** * Data model *)
(* ===================================================================== *)

(** Modelled from the spec: [types.ts] (the [Listing] interface) is not
    among the sources; the fields are the ones of the spec's data model,
    and the ones the code reads ([id], [title], [price], [url],
    [location]). *)
Record Listing := mkListing {
  id : string;
  title : string;
  price : string;
  url : string;
  location : option string;
  imageUrl : option string
}.

Global Instance Listing_eq_dec : EqDecision Listing.
Proof. solve_decision. Defined.

(** [getFingerprint] of [index.ts]. *)
Definition getFingerprint (listing : Listing) : string :=
  let title := Js.trim (Js.replace_ws (Js.toLowerCase (title listing)) " ") in
  let price := Js.trim (Js.replace_ws (price listing) EmptyString) in
  title +:+ "|" +:+ price.

(* ===================================================================== *)
(** * Aggregation and classification ([main], pure parts) *)
(* ===================================================================== *)

(** The [allListingsMap] of [main]: a [Map] keyed by id, read back in
    insertion order.  It is kept as the list of its values in that
    order; [has] looks the id up among them. *)
Definition map_has (m : list Listing) (k : string) : bool :=
  bool_decide (k ∈ id <$> m).

(** The inner loop of [main] over one source's listings. *)
Definition add_listings (m : list Listing) (listings : list Listing) : list Listing :=
  fold_left (fun m listing =>
               if negb (map_has m (id listing)) then m ++ [listing] else m)
            listings m.

(** [allListings.filter((l) => !seenIds.has(l.id))] *)
Definition newByIdListings (allListings : list Listing) (seenIds : gset string)
  : list Listing :=
  filter (fun l => id l ∉ seenIds) allListings.

(** The loop that pushes every new-by-id listing on [reposts] or on
    [genuinelyNew].  Returns [(genuinelyNew, reposts)]. *)
Definition split_reposts (seenFps : gset string) (newById : list Listing)
  : list Listing * list Listing :=
  fold_left (fun '(genuinelyNew, reposts) listing =>
               if bool_decide (getFingerprint listing ∈ seenFps)
               then (genuinelyNew, reposts ++ [listing])
               else (genuinelyNew ++ [listing], reposts))
            newById ([], []).

Definition genuinelyNew_of (allListings : list Listing) (seenIds seenFps : gset string) :=
  fst (split_reposts seenFps (newByIdListings allListings seenIds)).
Definition reposts_of (allListings : list Listing) (seenIds seenFps : gset string) :=
  snd (split_reposts seenFps (newByIdListings allListings seenIds)).

(* ===================================================================== *)
(** * The world: Redis store, environment, events *)
(* ===================================================================== *)

(** The two keys of [store.ts]. *)
Inductive Key := REDIS_KEY | FINGERPRINT_KEY.

Global Instance Key_eq_dec : EqDecision Key.
Proof. solve_decision. Defined.

Definition TTL_SECONDS : N := 30 * 24 * 60 * 60.

(** A Redis set with its time to live ([None]: no expiry set). *)
Record RedisSet := mkRedisSet {
  members : gset string;
  ttl : option N
}.

(** The store: a key that was never written is absent. *)
Record Redis := mkRedis {
  seen_ids : option RedisSet;
  seen_fingerprints : option RedisSet
}.

Definition key_get (r : Redis) (k : Key) : option RedisSet :=
  match k with
  | REDIS_KEY => seen_ids r
  | FINGERPRINT_KEY => seen_fingerprints r
  end.

Definition key_set (r : Redis) (k : Key) (v : option RedisSet) : Redis :=
  match k with
  | REDIS_KEY => {| seen_ids := v; seen_fingerprints := seen_fingerprints r |}
  | FINGERPRINT_KEY => {| seen_ids := seen_ids r; seen_fingerprints := v |}
  end.

(** [SMEMBERS]: an absent key reads as the empty set. *)
Definition smembers (r : Redis) (k : Key) : gset string :=
  from_option members ∅ (key_get r k).

(** [SADD]: creates the key when absent, never removes a member. *)
Definition sadd (r : Redis) (k : Key) (vals : list string) : Redis :=
  key_set r k (Some {| members := smembers r k ∪ list_to_set vals;
                       ttl := key_get r k ≫= ttl |}).

(** [EXPIRE]: sets the time to live of an existing key. *)
Definition expire (r : Redis) (k : Key) (seconds : N) : Redis :=
  match key_get r k with
  | Some s => key_set r k (Some {| members := members s; ttl := Some seconds |})
  | None => r
  end.

Inductive RedisCommand :=
| SMEMBERS (k : Key)
| SADD (k : Key) (vals : list string)
| EXPIRE (k : Key) (seconds : N)
| EXISTS (k : Key).

(** The extraction function [scrapeListings] selects for a host. *)
Inductive Site := Njuskalo | IndexHr | Oglasnik | Nekretnine.

(** The messages [notifier.ts] builds. *)
Inductive Message :=
| MsgNewListing (listing : Listing)
| MsgSummary (count : nat)
| MsgError (safe : string)
| MsgInitialized (listingCount urlCount : nat)
| MsgZeroListings.

Global Instance Message_eq_dec : EqDecision Message.
Proof. solve_decision. Defined.

Definition siteName (listing : Listing) : string :=
  if Js.includes (url listing) "index.hr" then "Index Oglasi"
  else if Js.includes (url listing) "oglasnik.hr" then "Oglasnik"
  else "Njuškalo".

(** The text handed to [sendTelegramMessage]. *)
Definition text_of (m : Message) : string :=
  match m with
  | MsgNewListing listing =>
      Js.join Js.newline
        (List.filter Js.truthy
           [ "🏠 <b>New Listing!</b>";
             EmptyString;
             "<b>" +:+ title listing +:+ "</b>";
             "💰 " +:+ price listing;
             match location listing with
             | Some loc => if Js.truthy loc then "📍 " +:+ loc else EmptyString
             | None => EmptyString
             end;
             EmptyString;
             "🔗 <a href=" +:+ Js.dquote +:+ url listing +:+ Js.dquote
               +:+ ">View on " +:+ siteName listing +:+ "</a>" ])
  | MsgSummary count =>
      "📊 <b>" +:+ pretty count +:+ " new listings found!</b> Sending details..."
  | MsgError safe => "⚠️ <b>Scrape failed:</b> " +:+ safe
  | MsgInitialized listingCount urlCount =>
      "🚀 <b>Scraper initialized!</b> Monitoring " +:+ pretty listingCount
        +:+ " existing listings across " +:+ pretty urlCount
        +:+ " search(es). You'll be notified of new ones."
  | MsgZeroListings =>
      "⚠️ <b>Zero listings found</b> — page structure may have changed."
  end.

Inductive Event :=
| EvLaunch                                               (* chromium.launch *)
| EvNavigate (attempt : nat) (address : string) (site : Site)
                                                         (* page.goto, extractFn *)
| EvClose                                                (* browser.close *)
| EvDelay (ms : N)                                       (* delay(ms) *)
| EvConsoleError (text err : string)                     (* console.error *)
| EvSend (m : Message)                                   (* one POST to Telegram *)
| EvRedis (c : RedisCommand).

(** What the run cannot decide itself. *)
Record Env := mkEnv {
  (** [process.env] *)
  process_env : gmap string string;
  (** [new URL(url).hostname]; [None] when the constructor throws. *)
  url_hostname : string -> option string;
  (** The n-th navigation and extraction of the run (from 0): the
      listings of the page, or the message of the error thrown. *)
  page_result : nat -> string + list Listing;
  (** The response to the n-th POST of the run (from 0): [None] when
      [res.ok], else the status and the body. *)
  telegram_response : nat -> option (nat * string)
}.

Record World := mkWorld {
  redis : Redis;
  posts : nat;         (* POSTs made so far *)
  navigations : nat    (* navigations made so far *)
}.

(* ===================================================================== *)
(** * Computations *)
(* ===================================================================== *)

Inductive Result (A : Type) :=
| Ok (a : A)
| Thrown (message : string).
Arguments Ok {A} a.
Arguments Thrown {A} message.

Record Outcome (A : Type) := mkOutcome {
  result : Result A;
  world : World;
  events : list Event
}.
Arguments mkOutcome {A}.
Arguments result {A}.
Arguments world {A}.
Arguments events {A}.

Definition M (A : Type) : Type := World -> Outcome A.

Definition ret {A} (a : A) : M A :=
  fun w => mkOutcome (Ok a) w [].

Definition throw {A} (message : string) : M A :=
  fun w => mkOutcome (Thrown message) w [].

Definition bind {A B} (m : M A) (f : A -> M B) : M B :=
  fun w =>
    let o := m w in
    match result o with
    | Ok a =>
        let o' := f a (world o) in
        mkOutcome (result o') (world o') (events o ++ events o')
    | Thrown e => mkOutcome (Thrown e) (world o) (events o)
    end.

(** The body of a [try]: what it threw becomes a value for the [catch]. *)
Definition try_ {A} (m : M A) : M (Result A) :=
  fun w => let o := m w in mkOutcome (Ok (result o)) (world o) (events o).

Definition emit (e : Event) : M unit :=
  fun w => mkOutcome (Ok tt) w [e].

Global Instance M_ret : MRet M := @ret.
Global Instance M_bind : MBind M := fun A B f m => bind m f.

Definition delay (ms : N) : M unit := emit (EvDelay ms).

Definition console_error (text err : string) : M unit :=
  emit (EvConsoleError text err).

(* ===================================================================== *)
(** * store.ts *)
(* ===================================================================== *)

(** One command sent to Redis: it is recorded and acts on the store. *)
Definition redis_do (c : RedisCommand) (f : Redis -> Redis) : M unit :=
  fun w => mkOutcome (Ok tt)
             {| redis := f (redis w); posts := posts w; navigations := navigations w |}
             [EvRedis c].

Definition redis_smembers (k : Key) : M (gset string) :=
  fun w => mkOutcome (Ok (smembers (redis w) k)) w [EvRedis (SMEMBERS k)].

Definition redis_exists (k : Key) : M bool :=
  fun w => mkOutcome (Ok (bool_decide (is_Some (key_get (redis w) k)))) w
             [EvRedis (EXISTS k)].

Definition redis_sadd (k : Key) (vals : list string) : M unit :=
  redis_do (SADD k vals) (fun r => sadd r k vals).

Definition redis_expire (k : Key) (seconds : N) : M unit :=
  redis_do (EXPIRE k seconds) (fun r => expire r k seconds).

(** [new Set(members.map(String))]: the client deserialises every member
    it reads, and [String] turns the value back into a string; this is
    taken to give the member that was added. *)
Definition getSeenIds : M (gset string) := redis_smembers REDIS_KEY.

Definition addSeenIds (ids : list string) : M unit :=
  if (length ids =? 0)%nat then ret tt
  else redis_sadd REDIS_KEY ids ;; redis_expire REDIS_KEY TTL_SECONDS.

Definition hasSeenIds : M bool := redis_exists REDIS_KEY.

Definition getSeenFingerprints : M (gset string) := redis_smembers FINGERPRINT_KEY.

Definition addSeenFingerprints (fingerprints : list string) : M unit :=
  if (length fingerprints =? 0)%nat then ret tt
  else redis_sadd FINGERPRINT_KEY fingerprints ;;
       redis_expire FINGERPRINT_KEY TTL_SECONDS.

Section Run.

Context (E : Env).

(* =================================================================== *)
(** * notifier.ts *)
(* =================================================================== *)

Definition sendTelegramMessage (m : Message) : M unit :=
  fun w =>
    mkOutcome
      match telegram_response E (posts w) with
      | None => Ok tt
      | Some (status, body) =>
          Thrown ("Telegram API error " +:+ pretty status +:+ ": " +:+ body)
      end
      {| redis := redis w; posts := S (posts w); navigations := navigations w |}
      [EvSend m].

Definition notifyNewListing (listing : Listing) : M unit :=
  sendTelegramMessage (MsgNewListing listing).

(** The [for] loop of [notifyNewListings]. *)
Fixpoint notify_each (listings : list Listing) : M unit :=
  match listings with
  | [] => ret tt
  | listing :: rest =>
      r ← try_ (notifyNewListing listing ;; delay 500) ;
      match r with
      | Ok _ => ret tt
      | Thrown err =>
          console_error
            ("Failed to send notification for listing " +:+ id listing +:+ ":") err
      end ;;
      notify_each rest
  end.

Definition notifyNewListings (listings : list Listing) : M unit :=
  (if (5 <=? length listings)%nat
   then sendTelegramMessage (MsgSummary (length listings)) ;; delay 500
   else ret tt) ;;
  notify_each listings.

Definition escapeHtml (text : string) : string :=
  Js.replace_char Js.gt "&gt;"
    (Js.replace_char Js.lt "&lt;"
       (Js.replace_char Js.amp "&amp;" text)).

Definition notifyError (errorMessage : string) : M unit :=
  r ← try_ (let safe := escapeHtml errorMessage in
            sendTelegramMessage (MsgError safe)) ;
  match r with
  | Ok _ => ret tt
  | Thrown err =>
      console_error "Failed to send error notification to Telegram:" err
  end.

Definition notifyInitialized (listingCount urlCount : nat) : M unit :=
  sendTelegramMessage (MsgInitialized listingCount urlCount).

Definition notifyZeroListings : M unit :=
  sendTelegramMessage MsgZeroListings.

(* =================================================================== *)
(** * scraper.ts *)
(* =================================================================== *)

Definition RETRY_DELAY : N := 10000.

(** The choice of [extractFn] by host name. *)
Definition extractFn_of (domain : string) : option Site :=
  if Js.includes domain "njuskalo.hr" then Some Njuskalo
  else if Js.includes domain "index.hr" then Some IndexHr
  else if Js.includes domain "oglasnik.hr" then Some Oglasnik
  else if Js.includes domain "nekretnine.hr" then Some Nekretnine
  else None.

(** The body of the [try]: a new page, [page.goto(url)] and
    [extractFn(page)].  The environment answers with the listings or
    with the error thrown. *)
Definition navigate_and_extract (attempt : nat) (address : string) (site : Site)
  : M (list Listing) :=
  fun w =>
    mkOutcome
      match page_result E (navigations w) with
      | inr listings => Ok listings
      | inl err => Thrown err
      end
      {| redis := redis w; posts := posts w; navigations := S (navigations w) |}
      [EvNavigate attempt address site].

(** The [for (let attempt = 1; attempt <= 2; attempt++)] loop, over the
    attempts still to make; after the loop comes the final [throw]. *)
Fixpoint scrape_attempts (address : string) (site : Site)
    (attempts : list nat) (lastError : option string) : M (list Listing) :=
  match attempts with
  | [] =>
      throw ("Failed to scrape " +:+ address +:+ " after 2 attempts: "
               +:+ default "undefined" lastError)
  | attempt :: rest =>
      emit EvLaunch ;;
      r ← try_ (navigate_and_extract attempt address site) ;
      match r with
      | Ok listings =>
          emit EvClose ;;          (* finally *)
          ret listings
      | Thrown err =>
          console_error ("[Attempt " +:+ pretty attempt +:+ "] Scrape failed:") err ;;
          (if (attempt <? 2)%nat then delay RETRY_DELAY else ret tt) ;;
          emit EvClose ;;          (* finally *)
          scrape_attempts address site rest (Some err)
      end
  end.

Definition scrapeListings (address : string) : M (list Listing) :=
  match url_hostname E address with
  | None => throw "Invalid URL"
  | Some domain =>
      match extractFn_of domain with
      | None => throw ("Unsupported site: " +:+ domain)
      | Some site => scrape_attempts address site [1; 2]%nat None
      end
  end.

(* =================================================================== *)
(** * index.ts *)
(* =================================================================== *)

Definition REQUIRED_ENV_VARS : list string :=
  [ "UPSTASH_REDIS_REST_URL";
    "UPSTASH_REDIS_REST_TOKEN";
    "TELEGRAM_BOT_TOKEN";
    "TELEGRAM_CHAT_ID" ].

(** [!process.env[key]]: the variable is unset or empty. *)
Definition env_unset (key : string) : bool :=
  match process_env E !! key with
  | Some v => negb (Js.truthy v)
  | None => true
  end.

Definition validateEnv : M unit :=
  let missing := List.filter env_unset REQUIRED_ENV_VARS in
  if (0 <? length missing)%nat
  then throw ("Missing required environment variables: " +:+ Js.join ", " missing)
  else
    if env_unset "NJUSKALO_URLS" && env_unset "INDEX_HR_URLS"
       && env_unset "OGLASNIK_HR_URLS"
    then throw "At least one of NJUSKALO_URLS, INDEX_HR_URLS, or OGLASNIK_HR_URLS must be set"
    else ret tt.

(** [v.split("|||").map((u) => u.trim()).filter(Boolean)] *)
Definition split_urls (v : string) : list string :=
  List.filter Js.truthy (Js.trim <$> Js.split v "|||").

(** The [urls.push(...)] guarded by [if (process.env.KEY)]. *)
Definition push_urls (urls : list string) (key : string) : list string :=
  match process_env E !! key with
  | Some v => if Js.truthy v then urls ++ split_urls v else urls
  | None => urls
  end.

Definition collectUrls : list string :=
  let urls := [] in
  let urls := push_urls urls "NJUSKALO_URLS" in
  let urls := push_urls urls "INDEX_HR_URLS" in
  let urls := push_urls urls "OGLASNIK_HR_URLS" in
  urls.

(** The [for (const url of urls)] loop of [main]. *)
Fixpoint scrape_all (urls : list string) (allListingsMap : list Listing)
  : M (list Listing) :=
  match urls with
  | [] => ret allListingsMap
  | address :: rest =>
      listings ← scrapeListings address ;
      scrape_all rest (add_listings allListingsMap listings)
  end.

Definition main : M unit :=
  validateEnv ;;
  let urls := collectUrls in
  allListings ← scrape_all urls [] ;
  if (length allListings =? 0)%nat
  then notifyZeroListings
  else
    seen ← hasSeenIds ;
    let isFirstRun := negb seen in
    if isFirstRun
    then
      let ids := id <$> allListings in
      addSeenIds ids ;;
      addSeenFingerprints (getFingerprint <$> allListings) ;;
      notifyInitialized (length allListings) (length urls)
    else
      seenIds ← getSeenIds ;
      seenFps ← getSeenFingerprints ;
      let newById := newByIdListings allListings seenIds in
      (if (length newById =? 0)%nat
       then ret tt
       else
         let '(genuinelyNew, reposts) := split_reposts seenFps newById in
         addSeenIds (id <$> newById) ;;
         if (0 <? length genuinelyNew)%nat
         then notifyNewListings genuinelyNew
         else ret tt) ;;
      addSeenFingerprints (getFingerprint <$> allListings).

(** How one invocation ends. *)
Record RunOutcome := mkRunOutcome {
  exit_code : nat;
  final : World;
  trace : list Event
}.

(** [main().catch(...)]: a run that resolves exits with 0; a rejected one
    logs, attempts the error notification and exits with 1. *)
Definition run (w : World) : RunOutcome :=
  let o := main w in
  match result o with
  | Ok _ => mkRunOutcome 0 (world o) (events o)
  | Thrown message =>
      let o' := (console_error "Fatal error:" message ;; notifyError message) (world o) in
      mkRunOutcome 1 (world o') (events o ++ events o')
  end.

End Run.

(* ===================================================================== *)
(** * Observations on a run *)
(* ===================================================================== *)

(** The messages handed to the transport, in order. *)
Definition sent (t : list Event) : list Message :=
  omap (fun e => match e with EvSend m => Some m | _ => None end) t.

Definition is_navigate (e : Event) : bool :=
  match e with EvNavigate _ _ _ => true | _ => false end.

(** The number of adapter attempts in a trace. *)
Definition navigation_count (t : list Event) : nat :=
  length (List.filter is_navigate t).

Definition is_redis (e : Event) : bool :=
  match e with EvRedis _ => true | _ => false end.

(** The event is a command that writes key [k]: an add or an expiry. *)
Definition writes_key (k : Key) (e : Event) : bool :=
  match e with
  | EvRedis (SADD k' _) | EvRedis (EXPIRE k' _) => bool_decide (k = k')
  | _ => false
  end.

(** The listing and summary messages of [notifyNewListings]. *)
Definition is_dispatch (m : Message) : bool :=
  match m with
  | MsgNewListing _ | MsgSummary _ => true
  | _ => false
  end.

Definition apply_event (r : Redis) (e : Event) : Redis :=
  match e with
  | EvRedis (SADD k vals) => sadd r k vals
  | EvRedis (EXPIRE k seconds) => expire r k seconds
  | _ => r
  end.

(** The store after the events of [t], from the store [r]. *)
Definition replay (r : Redis) (t : list Event) : Redis :=
  fold_left apply_event t r.

(** Validation passed and every source was fetched; [allListings] is the
    aggregated batch. *)
Definition fetched (E : Env) (w : World) (allListings : list Listing) : Prop :=
  result (validateEnv E w) = Ok tt ∧
  result (scrape_all E (collectUrls E) [] w) = Ok allListings.

(** [hasSeenIds] answers false: the identity key was never written. *)
Definition first_run (w : World) : Prop := seen_ids (redis w) = None.

(** The message of the error [sendTelegramMessage] throws on a response
    that is not ok. *)
Definition telegram_error (status : nat) (body : string) : string :=
  "Telegram API error " +:+ pretty status +:+ ": " +:+ body.

(** What [notify_each] does for the listing at position [i] when [k]
    POSTs were made before the loop. *)
Definition listing_events (E : Env) (k i : nat) (listing : Listing) : list Event :=
  EvSend (MsgNewListing listing) ::
  match telegram_response E (k + i) with
  | None => [EvDelay 500]
  | Some (status, body) =>
      [EvConsoleError
         ("Failed to send notification for listing " +:+ id listing +:+ ":")
         (telegram_error status body)]
  end.

(** The events of the top-level handler of [run] for a rejected [main],
    when [k] POSTs were made before. *)
Definition handler_events (E : Env) (k : nat) (message : string) : list Event :=
  EvConsoleError "Fatal error:" message ::
  EvSend (MsgError (escapeHtml message)) ::
  match telegram_response E k with
  | None => []
  | Some (status, body) =>
      [EvConsoleError "Failed to send error notification to Telegram:"
         (telegram_error status body)]
  end.

(** The events of a fetch: browser, delay and console only. *)
Definition is_fetch_event (e : Event) : bool :=
  match e with EvSend _ | EvRedis _ => false | _ => true end.

(** The events of the notifier: no browser, no store. *)
Definition is_notify_event (e : Event) : bool :=
  match e with EvSend _ | EvDelay _ | EvConsoleError _ _ => true | _ => false end.

(** The outcome [o], reached after the events [t]. *)
Definition prepend {A} (t : list Event) (o : Outcome A) : Outcome A :=
  mkOutcome (result o) (world o) (t ++ events o).

(** [o2] is what followed [o1]. *)
Definition after {A B} (o1 : Outcome A) (o2 : Outcome B) : Outcome B :=
  prepend (events o1) o2.

(** A computation leaves a component of the world as it is. *)
Definition preserves {A B} (proj : World → B) (m : M A) : Prop :=
  ∀ w, proj (world (m w)) = proj w.

(** Every event of a computation satisfies [P]. *)
Definition emits {A} (P : Event → bool) (m : M A) : Prop :=
  ∀ w, Forall (fun e => P e = true) (events (m w)).

(** The store of the world a computation ends in is the one its events
    produce. *)
Definition store_follows_events {A} (m : M A) : Prop :=
  ∀ w, redis (world (m w)) = replay (redis w) (events (m w)).

(** The world [w] with the store [r]. *)
Definition set_redis (w : World) (r : Redis) : World :=
  {| redis := r; posts := posts w; navigations := navigations w |}.

(** The store after [addSeenIds] / [addSeenFingerprints] of a non-empty
    list: the add, then the expiry. *)
Definition add_and_expire (r : Redis) (k : Key) (vals : list string) : Redis :=
  expire (sadd r k vals) k TTL_SECONDS.

(** ** The spec's sentences that the code does not follow, as stated *)

(** "This delay applies only between listing messages": every delay has
    a listing message right before it and right after it. *)
Definition paced_only_between_listings (t : list Event) : Prop :=
  ∀ pre ms post, t = pre ++ EvDelay ms :: post →
    (∃ pre' l, pre = pre' ++ [EvSend (MsgNewListing l)]) ∧
    (∃ l post', post = EvSend (MsgNewListing l) :: post').

(** Dispatch of five listings or more: the summary first, then one
    message per listing, paced only between listing messages. *)
Definition spec_dispatch (E : Env) (listings : list Listing) (w : World) : Prop :=
  5 ≤ length listings →
  sent (events (notifyNewListings E listings w))
    = MsgSummary (length listings) :: (MsgNewListing <$> listings) ∧
  paced_only_between_listings (events (notifyNewListings E listings w)).

(** The zero-listings run: one warning, no store access, exit code 0. *)
Definition spec_zero_listings (E : Env) (w : World) : Prop :=
  fetched E w [] →
  sent (trace (run E w)) = [MsgZeroListings] ∧
  Forall (fun e => is_redis e = false) (trace (run E w)) ∧
  exit_code (run E w) = 0.

(** Validation fails when a credential is missing or when the configured
    lists yield no address. *)
Definition spec_validation (E : Env) : Prop :=
  ((∃ key, key ∈ REQUIRED_ENV_VARS ∧ env_unset E key = true) ∨ collectUrls E = []) →
  ∀ w, ∃ message, result (validateEnv E w) = Thrown message.

(* ===================================================================== *)
(** * Sample data *)
(* ===================================================================== *)

Module Sample.

Definition l1001 : Listing :=
  mkListing "1001" "Zapresic, kuca, 95 m2" "200.000 EUR"
    "https://www.njuskalo.hr/nekretnine/1001" (Some "Zapresic") None.
Definition l1002 : Listing :=
  mkListing "1002" "Sveta Nedelja, kuca, 150 m2" "300.000 EUR"
    "https://www.njuskalo.hr/nekretnine/1002" None None.
Definition l9999 : Listing :=
  mkListing "9999" "Sveta Nedelja, kuca, 150 m2" "300.000 EUR"
    "https://www.njuskalo.hr/nekretnine/9999" None None.
Definition l2001 : Listing :=
  mkListing "2001" "Bregana, kuca, 200 m2" "250.000 EUR"
    "https://www.njuskalo.hr/nekretnine/2001" None None.
Definition l2002 : Listing :=
  mkListing "2002" "Samobor, stan, 60 m2" "150.000 EUR"
    "https://www.index.hr/oglasi/2002" None None.
Definition l2003 : Listing :=
  mkListing "2003" "Jastrebarsko, zemljiste" "40.000 EUR"
    "https://oglasnik.hr/2003" None None.

Definition five : list Listing := [l1001; l1002; l2001; l2002; l2003].

Definition credentials : list (string * string) :=
  [ ("UPSTASH_REDIS_REST_URL", "https://example.upstash.io");
    ("UPSTASH_REDIS_REST_TOKEN", "token");
    ("TELEGRAM_BOT_TOKEN", "bot");
    ("TELEGRAM_CHAT_ID", "42") ].

Definition search : string := "https://www.njuskalo.hr/prodaja-kuca".

Definition penv : gmap string string :=
  list_to_map (("NJUSKALO_URLS", search) :: credentials).

(** A list variable that is set and holds separators only. *)
Definition penv_separators : gmap string string :=
  list_to_map (("NJUSKALO_URLS", "|||") :: credentials).

Definition hostname (address : string) : option string :=
  if Js.startsWith address "https://www.njuskalo.hr" then Some "www.njuskalo.hr"
  else None.

Definition all_ok : nat -> option (nat * string) := fun _ => None.
Definition all_down : nat -> option (nat * string) :=
  fun _ => Some (429, "Too Many Requests").

(** The scenario of [test-dedup.ts]: 1001 is known, 9999 reposts 1002,
    2001 is new. *)
Definition env_dedup : Env :=
  mkEnv penv hostname (fun _ => inr [l1001; l9999; l2001]) all_ok.
Definition env_known : Env :=
  mkEnv penv hostname (fun _ => inr [l1001; l1002]) all_ok.
Definition env_empty : Env :=
  mkEnv penv hostname (fun _ => inr []) all_ok.
Definition env_empty_down : Env :=
  mkEnv penv hostname (fun _ => inr []) all_down.
Definition env_flaky : Env :=
  mkEnv penv hostname
    (fun n => match n with O => inl "Timeout 60000ms exceeded" | _ => inr [l2001] end)
    all_ok.
Definition env_down : Env :=
  mkEnv penv hostname (fun _ => inr five) all_down.
Definition env_five : Env :=
  mkEnv penv hostname (fun _ => inr five) all_ok.
Definition env_separators : Env :=
  mkEnv penv_separators hostname (fun _ => inr []) all_ok.

Definition store_seeded : Redis :=
  mkRedis (Some (mkRedisSet {[ "1001"; "1002" ]} (Some TTL_SECONDS)))
          (Some (mkRedisSet {[ getFingerprint l1001; getFingerprint l1002 ]}
                            (Some TTL_SECONDS))).
Definition store_fresh : Redis := mkRedis None None.

Definition w_seeded : World := mkWorld store_seeded 0 0.
Definition w_fresh : World := mkWorld store_fresh 0 0.

End Sample.

(* ===================================================================== *)
(** * Further observations *)
(* ===================================================================== *)

(** [allListingsMap.get(k)]: the record kept for an id, the first one in
    insertion order. *)
Fixpoint map_get (m : list Listing) (k : string) : option Listing :=
  match m with
  | [] => None
  | l :: rest => if decide (id l = k) then Some l else map_get rest k
  end.

(** The browser sessions of a trace, read from left to right with [open]
    sessions open: a launch needs none open, a navigation and a close need
    exactly one.  [None] when the trace breaks this, else the number of
    sessions left open. *)
Fixpoint sessions (open : nat) (t : list Event) : option nat :=
  match t with
  | [] => Some open
  | EvLaunch :: t' => if (open =? 0)%nat then sessions 1 t' else None
  | EvNavigate _ _ _ :: t' => if (open =? 1)%nat then sessions open t' else None
  | EvClose :: t' => if (open =? 1)%nat then sessions 0 t' else None
  | _ :: t' => sessions open t'
  end.

Definition is_delay (e : Event) : bool :=
  match e with EvDelay _ => true | _ => false end.

(** The number of pacing or retry delays in a trace. *)
Definition delay_count (t : list Event) : nat :=
  length (List.filter is_delay t).

(** The character [c] occurs in [s]. *)
Fixpoint has_char (c : Ascii.ascii) (s : string) : bool :=
  match s with
  | EmptyString => false
  | String d s' => bool_decide (c = d) || has_char c s'
  end.

(** [s] is empty or starts with the first byte of a character: a
    position between two characters of a string. *)
Definition starts_character (s : string) : bool :=
  match s with
  | EmptyString => true
  | String c _ => negb (Js.continuation c)
  end.

(** The separator character of the address lists. *)
Definition bar : Ascii.ascii := Ascii.ascii_of_nat 124.

(** An address as the configuration is meant to hold it: not empty, no
    separator character, no white space at either end ([trim] gives it
    back). *)
Definition clean_address (u : string) : Prop :=
  Js.truthy u = true ∧ has_char bar u = false ∧ Js.trim u = u.

(** How a list of addresses is written into an environment variable:
    joined by the separator; no variable for no address. *)
Definition encode_addresses (us : list string) : option string :=
  match us with
  | [] => None
  | _ => Some (Js.join "|||" us)
  end.

(** The event is not the hand-over of an error notification. *)
Definition not_error_message (e : Event) : bool :=
  match e with EvSend (MsgError _) => false | _ => true end.

(** The store of a later run after the ids of [newById] were added. *)
Definition ids_added (w : World) (newById : list Listing) : Redis :=
  add_and_expire (redis w) REDIS_KEY (id <$> newById).

(** The store of a first run after seeding with [allListings]. *)
Definition seeded_store (w : World) (allListings : list Listing) : Redis :=
  add_and_expire (add_and_expire (redis w) REDIS_KEY (id <$> allListings))
    FINGERPRINT_KEY (getFingerprint <$> allListings).

Module Cases.

(** Every navigation times out. *)
Definition env_unreachable : Env :=
  mkEnv Sample.penv Sample.hostname (fun _ => inl "Timeout 60000ms exceeded")
    Sample.all_ok.

(** No credential is set. *)
Definition env_unconfigured : Env :=
  mkEnv ∅ Sample.hostname (fun _ => inr []) Sample.all_ok.

(** Two address lists are set. *)
Definition penv_two_sites : gmap string string :=
  list_to_map
    (("NJUSKALO_URLS",
      "https://www.njuskalo.hr/prodaja-kuca|||https://www.njuskalo.hr/prodaja-zemljista")
       :: ("OGLASNIK_HR_URLS", "https://oglasnik.hr/stanovi-prodaja")
       :: Sample.credentials).
Definition env_two_sites : Env :=
  mkEnv penv_two_sites Sample.hostname (fun _ => inr []) Sample.all_ok.

(** The batch of [Sample.env_dedup], seen again by the next run. *)
Definition w_after_dedup : World :=
  mkWorld (redis (final (run Sample.env_dedup Sample.w_seeded))) 0 0.

(** The next run finds 9999 again, a new id whose title and price are
    those of 2001, and one listing not seen before. *)
Definition l3001 : Listing :=
  mkListing "3001" "BREGANA,  kuca, 200 m2" "250.000EUR"
    "https://www.njuskalo.hr/nekretnine/3001" None None.
Definition env_next : Env :=
  mkEnv Sample.penv Sample.hostname
    (fun _ => inr [Sample.l9999; l3001; Sample.l2002]) Sample.all_ok.

(** The no-break space U+00A0, and listing 2001 under another id with
    that character for the first blank of its title. *)
Definition nbsp : string :=
  String (Ascii.ascii_of_nat 194) (String (Ascii.ascii_of_nat 160) EmptyString).
Definition l3002 : Listing :=
  mkListing "3002" ("Bregana," +:+ nbsp +:+ "kuca, 200 m2") "250.000 EUR"
    "https://www.njuskalo.hr/nekretnine/3002" None None.

End Cases.

(* ===================================================================== *)
(** * Strings *)
(* ===================================================================== *)

Lemma startsWith_app (p s : string) : Js.startsWith (p +:+ s) p = true.
Proof.
  induction p as [|a p IH]; [by destruct s|].
  change (String a p +:+ s) with (String a (p +:+ s)).
  cbn [Js.startsWith]. by rewrite decide_True.
Qed.

Lemma includes_startsWith (s sub : string) :
  Js.startsWith s sub = true → Js.includes s sub = true.
Proof. intros H. destruct s; cbn [Js.includes]; by rewrite H. Qed.

(* ===================================================================== *)
(** * Classification *)
(* ===================================================================== *)

Lemma split_reposts_fold (seenFps : gset string) (ls gn rp : list Listing) :
  fold_left (fun '(genuinelyNew, reposts) listing =>
               if bool_decide (getFingerprint listing ∈ seenFps)
               then (genuinelyNew, reposts ++ [listing])
               else (genuinelyNew ++ [listing], reposts))
            ls (gn, rp)
  = (gn ++ filter (fun l => getFingerprint l ∉ seenFps) ls,
     rp ++ filter (fun l => getFingerprint l ∈ seenFps) ls).
Proof.
  revert gn rp. induction ls as [|l ls IH]; intros gn rp.
  - by rewrite !filter_nil, !app_nil_r.
  - cbn [fold_left]. case_bool_decide as Hfp; rewrite IH.
    + rewrite (filter_cons_False _ l) by (intros Hn; by apply Hn).
      rewrite (filter_cons_True _ l) by done.
      by rewrite <-app_assoc.
    + rewrite (filter_cons_True _ l) by done.
      rewrite (filter_cons_False _ l) by done.
      by rewrite <-app_assoc.
Qed.

Lemma split_reposts_filter (seenFps : gset string) (ls : list Listing) :
  split_reposts seenFps ls
  = (filter (fun l => getFingerprint l ∉ seenFps) ls,
     filter (fun l => getFingerprint l ∈ seenFps) ls).
Proof. unfold split_reposts. by rewrite split_reposts_fold. Qed.

Lemma genuinelyNew_new_by_id
    (allListings : list Listing) (seenIds seenFps : gset string) (l : Listing) :
  l ∈ genuinelyNew_of allListings seenIds seenFps →
  l ∈ newByIdListings allListings seenIds.
Proof.
  unfold genuinelyNew_of. rewrite split_reposts_filter. cbn [fst].
  by intros [_ ?]%list_elem_of_filter.
Qed.

(* ===================================================================== *)
(** * Sequencing and frames *)
(* ===================================================================== *)

Lemma bind_ok {A B} (m : M A) (f : A → M B) (w : World) (a : A) :
  result (m w) = Ok a → (m ≫= f) w = after (m w) (f a (world (m w))).
Proof. intros H. unfold mbind, M_bind, bind. by rewrite H. Qed.

Lemma bind_thrown {A B} (m : M A) (f : A → M B) (w : World) (e : string) :
  result (m w) = Thrown e →
  (m ≫= f) w = mkOutcome (Thrown e) (world (m w)) (events (m w)).
Proof. intros H. unfold mbind, M_bind, bind. by rewrite H. Qed.

Lemma preserves_bind {A B C} (proj : World → C) (m : M A) (f : A → M B) :
  preserves proj m → (∀ a, preserves proj (f a)) → preserves proj (m ≫= f).
Proof.
  intros Hm Hf w. unfold mbind, M_bind, bind.
  destruct (result (m w)) as [a|e]; cbn; [|apply Hm].
  by rewrite Hf, Hm.
Qed.

Lemma emits_bind {A B} (P : Event → bool) (m : M A) (f : A → M B) :
  emits P m → (∀ a, emits P (f a)) → emits P (m ≫= f).
Proof.
  intros Hm Hf w. unfold mbind, M_bind, bind.
  destruct (result (m w)) as [a|e]; cbn; [|apply Hm].
  apply Forall_app; split; [apply Hm|apply Hf].
Qed.

Lemma preserves_try {A C} (proj : World → C) (m : M A) :
  preserves proj m → preserves proj (try_ m).
Proof. intros Hm w. apply Hm. Qed.

Lemma emits_try {A} (P : Event → bool) (m : M A) : emits P m → emits P (try_ m).
Proof. intros Hm w. apply Hm. Qed.

Lemma preserves_ret {A C} (proj : World → C) (a : A) : preserves proj (ret a).
Proof. done. Qed.

Lemma emits_ret {A} (P : Event → bool) (a : A) : emits P (ret a).
Proof. intros w. constructor. Qed.

Lemma preserves_throw {A C} (proj : World → C) (e : string) :
  preserves proj (@throw A e).
Proof. done. Qed.

Lemma emits_throw {A} (P : Event → bool) (e : string) : emits P (@throw A e).
Proof. intros w. constructor. Qed.

Lemma preserves_emit {C} (proj : World → C) (e : Event) : preserves proj (emit e).
Proof. done. Qed.

Lemma emits_emit (P : Event → bool) (e : Event) : P e = true → emits P (emit e).
Proof. intros H w. by repeat constructor. Qed.

(** Frame goals are closed by following the structure of the code. *)
Ltac frame :=
  repeat first
    [ progress intros
    | simple apply preserves_bind | simple apply emits_bind
    | simple apply preserves_ret | simple apply preserves_throw
    | simple apply preserves_emit | simple apply preserves_try
    | simple apply emits_ret | simple apply emits_throw | simple apply emits_try
    | simple apply emits_emit; reflexivity
    | case_match ].

(** ** Frames of the fetch *)

Lemma navigate_frame E attempt address site :
  preserves redis (navigate_and_extract E attempt address site) ∧
  preserves posts (navigate_and_extract E attempt address site) ∧
  emits is_fetch_event (navigate_and_extract E attempt address site).
Proof. split_and!; intros w; cbn; by repeat constructor. Qed.

Lemma scrape_attempts_frame E address site attempts lastError :
  preserves redis (scrape_attempts E address site attempts lastError) ∧
  preserves posts (scrape_attempts E address site attempts lastError) ∧
  emits is_fetch_event (scrape_attempts E address site attempts lastError).
Proof.
  revert lastError. induction attempts as [|a attempts IH]; intros lastError.
  - cbn [scrape_attempts]. split_and!; frame.
  - pose proof (navigate_frame E a address site) as (Hr & Hp & He).
    cbn [scrape_attempts].
    split_and!; unfold delay, console_error; frame; solve [apply IH | done].
Qed.

Lemma scrapeListings_frame E address :
  preserves redis (scrapeListings E address) ∧
  preserves posts (scrapeListings E address) ∧
  emits is_fetch_event (scrapeListings E address).
Proof.
  unfold scrapeListings.
  split_and!; frame; apply scrape_attempts_frame.
Qed.

Lemma scrape_all_frame E urls allListingsMap :
  preserves redis (scrape_all E urls allListingsMap) ∧
  preserves posts (scrape_all E urls allListingsMap) ∧
  emits is_fetch_event (scrape_all E urls allListingsMap).
Proof.
  revert allListingsMap.
  induction urls as [|address urls IH]; intros allListingsMap.
  - cbn [scrape_all]. split_and!; frame.
  - pose proof (scrapeListings_frame E address) as (Hr & Hp & He).
    cbn [scrape_all]. split_and!; frame; solve [apply IH | done].
Qed.

(** ** Frames of the notifier *)

Lemma send_frame E m :
  preserves redis (sendTelegramMessage E m) ∧
  emits is_notify_event (sendTelegramMessage E m).
Proof. split; intros w; cbn; by repeat constructor. Qed.

Lemma notify_each_frame E listings :
  preserves redis (notify_each E listings) ∧
  emits is_notify_event (notify_each E listings).
Proof.
  induction listings as [|l listings IH].
  - cbn [notify_each]. split; frame.
  - cbn [notify_each]. unfold notifyNewListing, delay, console_error.
    pose proof (send_frame E (MsgNewListing l)) as [Hr He].
    split; frame; solve [apply IH | done].
Qed.

Lemma notifyNewListings_frame E listings :
  preserves redis (notifyNewListings E listings) ∧
  emits is_notify_event (notifyNewListings E listings).
Proof.
  unfold notifyNewListings, delay.
  pose proof (send_frame E (MsgSummary (length listings))) as [Hr He].
  pose proof (notify_each_frame E listings) as [Hr' He'].
  split; frame; done.
Qed.

(** The loop of [notifyNewListings] never throws: every failed send is
    caught, and every listing is attempted. *)
Lemma notify_each_spec E listings w :
  result (notify_each E listings w) = Ok tt ∧
  posts (world (notify_each E listings w)) = posts w + length listings ∧
  events (notify_each E listings w)
    = concat (imap (listing_events E (posts w)) listings).
Proof.
  revert w. induction listings as [|l listings IH]; intros w; [by cbn; auto with lia|].
  set (w' := {| redis := redis w; posts := S (posts w); navigations := navigations w |}).
  destruct (IH w') as (IHres & IHposts & IHev).
  assert (concat (imap (listing_events E (posts w)) (l :: listings))
          = listing_events E (posts w) 0 l
              ++ concat (imap (listing_events E (posts w')) listings)) as ->.
  { cbn [imap concat]. f_equal. f_equal. apply imap_ext. intros i x _.
    unfold listing_events, w'. cbn.
    by replace (S (posts w + i)) with (posts w + S i) by lia. }
  rewrite <-IHev. unfold listing_events. rewrite Nat.add_0_r.
  cbn [notify_each]. unfold mbind, M_bind, bind, try_, notifyNewListing.
  cbn -[notify_each].
  destruct (telegram_response E (posts w)) as [[status body]|]; cbn -[notify_each];
    fold w'; rewrite IHres, IHposts; (split_and!; [done|cbn; lia|done]).
Qed.

(* ===================================================================== *)
(** * Dispatch ([notifyNewListings]) *)
(* ===================================================================== *)

Lemma sent_app (t1 t2 : list Event) : sent (t1 ++ t2) = sent t1 ++ sent t2.
Proof. apply omap_app. Qed.

Lemma sent_cons (e : Event) (t : list Event) :
  sent (e :: t) = match e with EvSend m => m :: sent t | _ => sent t end.
Proof. by destruct e. Qed.

Lemma sent_listing_events E k i l : sent (listing_events E k i l) = [MsgNewListing l].
Proof.
  unfold listing_events.
  by destruct (telegram_response E (k + i)) as [[status body]|].
Qed.

Lemma sent_each (f : nat → Listing → list Event) (listings : list Listing) :
  (∀ i l, sent (f i l) = [MsgNewListing l]) →
  sent (concat (imap f listings)) = MsgNewListing <$> listings.
Proof.
  revert f. induction listings as [|l listings IH]; intros f Hf; [done|].
  cbn [imap concat fmap list_fmap]. rewrite sent_app, Hf.
  rewrite IH; [done|]. intros i x. apply Hf.
Qed.

(** With fewer than five listings there is no summary, and dispatch
    returns normally whatever the transport answers. *)
Lemma notifyNewListings_small E listings w :
  length listings < 5 →
  result (notifyNewListings E listings w) = Ok tt ∧
  events (notifyNewListings E listings w)
    = concat (imap (listing_events E (posts w)) listings).
Proof.
  intros Hlen. unfold notifyNewListings.
  destruct (5 <=? length listings) eqn:Hle; [apply Nat.leb_le in Hle; lia|].
  rewrite (bind_ok _ _ _ tt) by done.
  unfold after, prepend. cbn [result events ret app world].
  destruct (notify_each_spec E listings w) as (-> & _ & ->). done.
Qed.

(** With five listings or more the summary goes first; its failure is not
    caught: dispatch throws and no listing message is attempted. *)
Lemma notifyNewListings_summary_fails E listings w status body :
  5 ≤ length listings →
  telegram_response E (posts w) = Some (status, body) →
  result (notifyNewListings E listings w) = Thrown (telegram_error status body) ∧
  events (notifyNewListings E listings w) = [EvSend (MsgSummary (length listings))].
Proof.
  intros Hlen Htg. unfold notifyNewListings.
  apply Nat.leb_le in Hlen. rewrite Hlen.
  unfold mbind, M_bind, bind. cbn [sendTelegramMessage result world events].
  rewrite Htg. done.
Qed.

(** C5.  Dispatch of the five sample listings when the transport answers
    429 to every POST: the failure of the summary message leaves
    [notifyNewListings] as a thrown error, after a single POST; no
    listing message is attempted. *)
Theorem dispatch_throws_when_summary_fails :
  result (notifyNewListings Sample.env_down Sample.five Sample.w_seeded)
    = Thrown "Telegram API error 429: Too Many Requests" ∧
  sent (events (notifyNewListings Sample.env_down Sample.five Sample.w_seeded))
    = [MsgSummary 5].
Proof. split; vm_compute; reflexivity. Qed.

(** Five listings, a transport that accepts everything: the delay right
    after the summary is not between two listing messages. *)
Lemma dispatch_delay_follows_summary :
  ¬ spec_dispatch Sample.env_five Sample.five Sample.w_seeded.
Proof.
  intros Hspec. destruct Hspec as [_ Hpaced]; [cbn; lia|].
  destruct (Hpaced [EvSend (MsgSummary 5)] 500%N
              (drop 2 (events (notifyNewListings Sample.env_five Sample.five
                                 Sample.w_seeded))))
    as [(pre' & l & Hpre) _]; [vm_compute; reflexivity|].
  destruct pre' as [|e [|e' pre']]; discriminate.
Qed.

(** With five listings or more and an accepted summary: the summary, a
    delay, then the loop. *)
Lemma notifyNewListings_summary_ok E (listings : list Listing) (w : World) :
  5 ≤ length listings →
  telegram_response E (posts w) = None →
  result (notifyNewListings E listings w) = Ok tt ∧
  events (notifyNewListings E listings w)
    = EvSend (MsgSummary (length listings)) :: EvDelay 500
        :: concat (imap (listing_events E (S (posts w))) listings).
Proof.
  intros Hlen Htg. unfold notifyNewListings.
  apply Nat.leb_le in Hlen. rewrite Hlen.
  unfold mbind, M_bind, bind.
  cbn [sendTelegramMessage result world events delay emit app].
  rewrite Htg. cbn [result world events app].
  set (w' := {| redis := redis w; posts := S (posts w);
                navigations := navigations w |}).
  by destruct (notify_each_spec E listings w') as (-> & _ & ->).
Qed.

(** C6 (as the code has it).  Given at least five listings and a summary
    message the transport accepts, dispatch returns normally after exactly
    one POST for the summary followed by exactly one POST per listing, in
    order.  Nothing precedes the summary; a 500 ms delay follows the
    summary and follows every listing message whose POST succeeded (the
    last one included); a failed POST is followed by a console error, not
    by a delay. *)
Theorem dispatch_summary_then_listings E (listings : list Listing) (w : World) :
  5 ≤ length listings →
  telegram_response E (posts w) = None →
  let o := notifyNewListings E listings w in
  result o = Ok tt ∧
  sent (events o) = MsgSummary (length listings) :: (MsgNewListing <$> listings) ∧
  length (sent (events o)) = S (length listings) ∧
  events o = EvSend (MsgSummary (length listings)) :: EvDelay 500
               :: concat (imap (listing_events E (S (posts w))) listings).
Proof.
  intros Hlen Htg o.
  destruct (notifyNewListings_summary_ok E listings w Hlen Htg) as [Hres Hev].
  fold o in Hres, Hev.
  assert (sent (events o) = MsgSummary (length listings) :: (MsgNewListing <$> listings))
    as Hsent.
  { rewrite Hev, !sent_cons. f_equal.
    apply sent_each. intros i l. apply sent_listing_events. }
  split_and!; [done|done| |done].
  rewrite Hsent. cbn [length]. by rewrite length_fmap.
Qed.

Lemma dispatch_summary_then_listings_witness :
  sent (events (notifyNewListings Sample.env_five Sample.five Sample.w_seeded))
    = MsgSummary 5 :: (MsgNewListing <$> Sample.five).
Proof.
  apply (dispatch_summary_then_listings Sample.env_five Sample.five Sample.w_seeded).
  - cbn. lia.
  - reflexivity.
Defined.

(* ===================================================================== *)
(** * The paths of [main] *)
(* ===================================================================== *)

Lemma bind_run {A B} (m : M A) (f : A → M B) (w : World) a w1 t1 :
  m w = mkOutcome (Ok a) w1 t1 → (m ≫= f) w = prepend t1 (f a w1).
Proof. intros H. unfold mbind, M_bind, bind. by rewrite H. Qed.

Lemma prepend_nil {A} (o : Outcome A) : prepend [] o = o.
Proof. by destruct o. Qed.

(** One statement of straight-line code whose outcome is known. *)
Ltac run_step := erewrite bind_run by reflexivity; cbv beta.

Lemma validateEnv_pure E w :
  world (validateEnv E w) = w ∧ events (validateEnv E w) = [].
Proof. unfold validateEnv. repeat case_match; done. Qed.

Lemma addSeenIds_cons (x : string) (xs : list string) (w : World) :
  addSeenIds (x :: xs) w
  = mkOutcome (Ok tt) (set_redis w (add_and_expire (redis w) REDIS_KEY (x :: xs)))
      [EvRedis (SADD REDIS_KEY (x :: xs)); EvRedis (EXPIRE REDIS_KEY TTL_SECONDS)].
Proof. reflexivity. Qed.

Lemma addSeenFingerprints_cons (x : string) (xs : list string) (w : World) :
  addSeenFingerprints (x :: xs) w
  = mkOutcome (Ok tt)
      (set_redis w (add_and_expire (redis w) FINGERPRINT_KEY (x :: xs)))
      [EvRedis (SADD FINGERPRINT_KEY (x :: xs));
       EvRedis (EXPIRE FINGERPRINT_KEY TTL_SECONDS)].
Proof. reflexivity. Qed.

Lemma addSeenIds_nonempty (ids : list string) (w : World) :
  ids ≠ [] →
  addSeenIds ids w
  = mkOutcome (Ok tt) (set_redis w (add_and_expire (redis w) REDIS_KEY ids))
      [EvRedis (SADD REDIS_KEY ids); EvRedis (EXPIRE REDIS_KEY TTL_SECONDS)].
Proof. intros H. destruct ids; [done|]. apply addSeenIds_cons. Qed.

Lemma addSeenFingerprints_nonempty (fingerprints : list string) (w : World) :
  fingerprints ≠ [] →
  addSeenFingerprints fingerprints w
  = mkOutcome (Ok tt)
      (set_redis w (add_and_expire (redis w) FINGERPRINT_KEY fingerprints))
      [EvRedis (SADD FINGERPRINT_KEY fingerprints);
       EvRedis (EXPIRE FINGERPRINT_KEY TTL_SECONDS)].
Proof. intros H. destruct fingerprints; [done|]. apply addSeenFingerprints_cons. Qed.

Lemma length_eqb_0_false {A} (l : list A) : l ≠ [] → (length l =? 0)%nat = false.
Proof. by destruct l. Qed.

Lemma hasSeenIds_later (w : World) :
  ¬ first_run w → bool_decide (is_Some (key_get (redis w) REDIS_KEY)) = true.
Proof.
  intros H. apply bool_decide_eq_true. unfold first_run in H. cbn.
  by destruct (seen_ids (redis w)).
Qed.

Lemma hasSeenIds_first (w : World) :
  first_run w → bool_decide (is_Some (key_get (redis w) REDIS_KEY)) = false.
Proof.
  intros H. apply bool_decide_eq_false. unfold first_run in H. cbn.
  rewrite H. by intros [? ?].
Qed.

(** After a passed validation and a successful fetch, [main] goes on with
    the aggregated batch in the world the fetch left. *)
Lemma main_fetched E w allListings (K : list Listing → M unit) :
  fetched E w allListings →
  (validateEnv E ;; (all ← scrape_all E (collectUrls E) [] ; K all)) w
  = after (scrape_all E (collectUrls E) [] w)
          (K allListings (world (scrape_all E (collectUrls E) [] w))).
Proof.
  intros [Hv Hf].
  rewrite (bind_ok _ _ _ tt Hv).
  destruct (validateEnv_pure E w) as [Hw Ht].
  unfold after at 1. rewrite Hw, Ht, prepend_nil.
  by rewrite (bind_ok _ _ _ allListings Hf).
Qed.

(** The zero-listings path. *)
Lemma main_zero E w :
  fetched E w [] →
  main E w = after (scrape_all E (collectUrls E) [] w)
               (notifyZeroListings E (world (scrape_all E (collectUrls E) [] w))).
Proof.
  intros Hf. unfold main. cbv zeta. by rewrite (main_fetched _ _ _ _ Hf).
Qed.

(** The first-run path: both sets are seeded, then the initialization
    message is sent. *)
Lemma main_first_run E w allListings :
  fetched E w allListings → allListings ≠ [] → first_run w →
  let o1 := scrape_all E (collectUrls E) [] w in
  let seeded :=
    add_and_expire (add_and_expire (redis w) REDIS_KEY (id <$> allListings))
      FINGERPRINT_KEY (getFingerprint <$> allListings) in
  main E w =
    prepend
      (events o1 ++
         [EvRedis (EXISTS REDIS_KEY);
          EvRedis (SADD REDIS_KEY (id <$> allListings));
          EvRedis (EXPIRE REDIS_KEY TTL_SECONDS);
          EvRedis (SADD FINGERPRINT_KEY (getFingerprint <$> allListings));
          EvRedis (EXPIRE FINGERPRINT_KEY TTL_SECONDS)])
      (notifyInitialized E (length allListings) (length (collectUrls E))
         (set_redis (world o1) seeded)).
Proof.
  intros Hf Hne Hfirst o1 seeded.
  unfold main. cbv zeta. rewrite (main_fetched _ _ _ _ Hf). fold o1.
  destruct (scrape_all_frame E (collectUrls E) []) as (Hr & _ & _).
  specialize (Hr w). fold o1 in Hr.
  destruct allListings as [|l rest]; [done|].
  unfold after. cbn [length Nat.eqb].
  run_step. rewrite Hr, hasSeenIds_first by done. cbn [negb].
  cbn [fmap list_fmap].
  erewrite bind_run by apply addSeenIds_cons. cbv beta.
  erewrite bind_run by apply addSeenFingerprints_cons. cbv beta.
  unfold prepend, set_redis. cbn [result world events redis posts navigations app].
  rewrite Hr. by rewrite <-app_assoc.
Qed.

(** A later run with nothing new by id: only the fingerprints are
    synced. *)
Lemma main_no_new E w allListings :
  fetched E w allListings → allListings ≠ [] → ¬ first_run w →
  newByIdListings allListings (smembers (redis w) REDIS_KEY) = [] →
  let o1 := scrape_all E (collectUrls E) [] w in
  let fps := getFingerprint <$> allListings in
  main E w =
    mkOutcome (Ok tt)
      (set_redis (world o1) (add_and_expire (redis w) FINGERPRINT_KEY fps))
      (events o1 ++
         [EvRedis (EXISTS REDIS_KEY); EvRedis (SMEMBERS REDIS_KEY);
          EvRedis (SMEMBERS FINGERPRINT_KEY);
          EvRedis (SADD FINGERPRINT_KEY fps);
          EvRedis (EXPIRE FINGERPRINT_KEY TTL_SECONDS)]).
Proof.
  intros Hf Hne Hfirst Hnew o1 fps.
  unfold main. cbv zeta. rewrite (main_fetched _ _ _ _ Hf). fold o1.
  destruct (scrape_all_frame E (collectUrls E) []) as (Hr & _ & _).
  specialize (Hr w). fold o1 in Hr.
  destruct allListings as [|l rest]; [done|].
  unfold after. cbn [length Nat.eqb].
  run_step. rewrite Hr, hasSeenIds_later by done. cbn [negb].
  run_step. run_step. rewrite Hr, Hnew. cbn [length Nat.eqb].
  run_step. unfold fps. cbn [fmap list_fmap].
  rewrite addSeenFingerprints_cons.
  unfold prepend. cbn [result world events app]. by rewrite Hr.
Qed.

(** A later run with listings new by id: their ids are added, the
    genuinely new ones are dispatched, and when dispatch returns the
    fingerprints are synced. *)
Lemma main_new E w allListings :
  fetched E w allListings → ¬ first_run w →
  let o1 := scrape_all E (collectUrls E) [] w in
  let seenIds := smembers (redis w) REDIS_KEY in
  let seenFps := smembers (redis w) FINGERPRINT_KEY in
  let newById := newByIdListings allListings seenIds in
  let genuinelyNew := genuinelyNew_of allListings seenIds seenFps in
  let fps := getFingerprint <$> allListings in
  let before :=
    events o1 ++
      [EvRedis (EXISTS REDIS_KEY); EvRedis (SMEMBERS REDIS_KEY);
       EvRedis (SMEMBERS FINGERPRINT_KEY);
       EvRedis (SADD REDIS_KEY (id <$> newById));
       EvRedis (EXPIRE REDIS_KEY TTL_SECONDS)] in
  let d :=
    (if (0 <? length genuinelyNew)%nat
     then notifyNewListings E genuinelyNew else ret tt)
      (set_redis (world o1) (add_and_expire (redis w) REDIS_KEY (id <$> newById))) in
  newById ≠ [] →
  main E w =
    match result d with
    | Ok _ =>
        mkOutcome (Ok tt)
          (set_redis (world d) (add_and_expire (redis (world d)) FINGERPRINT_KEY fps))
          (before ++ events d ++
             [EvRedis (SADD FINGERPRINT_KEY fps);
              EvRedis (EXPIRE FINGERPRINT_KEY TTL_SECONDS)])
    | Thrown e => mkOutcome (Thrown e) (world d) (before ++ events d)
    end.
Proof.
  intros Hf Hfirst o1 seenIds seenFps newById genuinelyNew fps before d Hnew.
  assert (allListings ≠ []) as Hne.
  { intros ->. by apply Hnew. }
  unfold main. cbv zeta. rewrite (main_fetched _ _ _ _ Hf). fold o1.
  destruct (scrape_all_frame E (collectUrls E) []) as (Hr & _ & _).
  specialize (Hr w). fold o1 in Hr.
  unfold after. rewrite (length_eqb_0_false _ Hne).
  run_step. rewrite Hr, hasSeenIds_later by done. cbn [negb].
  run_step. run_step. rewrite Hr. fold seenIds seenFps newById.
  rewrite (length_eqb_0_false _ Hnew).
  assert (genuinelyNew = fst (split_reposts seenFps newById)) as Hgn by done.
  destruct (split_reposts seenFps newById) as [gn rp]. cbn [fst] in Hgn.
  rewrite <-Hgn.
  unfold mbind at 1, M_bind at 1, bind at 1.
  erewrite (bind_run (addSeenIds _)); cycle 1.
  { rewrite addSeenIds_nonempty by (by destruct newById). by rewrite Hr. }
  cbv beta. cbn [result world events prepend]. fold d.
  destruct (result d) as [[]|e] eqn:Hd.
  - rewrite addSeenFingerprints_nonempty by (by destruct allListings).
    unfold prepend. cbn [result world events]. unfold before, fps. f_equal.
    by rewrite <-!app_assoc.
  - unfold prepend. cbn [result world events]. unfold before. f_equal.
    by rewrite <-!app_assoc.
Qed.

(* ===================================================================== *)
(** * The store *)
(* ===================================================================== *)

Lemma smembers_add_and_expire (r : Redis) (k : Key) (vals : list string) :
  smembers (add_and_expire r k vals) k = smembers r k ∪ list_to_set vals.
Proof. by destruct k. Qed.

Lemma smembers_add_and_expire_ne (r : Redis) (k k' : Key) (vals : list string) :
  k ≠ k' → smembers (add_and_expire r k vals) k' = smembers r k'.
Proof. by destruct k, k'. Qed.

Lemma ttl_add_and_expire (r : Redis) (k : Key) (vals : list string) :
  key_get (add_and_expire r k vals) k ≫= ttl = Some TTL_SECONDS.
Proof. by destruct k. Qed.

Lemma smembers_first_run (w : World) : first_run w → smembers (redis w) REDIS_KEY = ∅.
Proof. unfold first_run, smembers. cbn. by intros ->. Qed.

(** No command removes a member. *)
Lemma smembers_apply_event (r : Redis) (e : Event) (k : Key) :
  smembers r k ⊆ smembers (apply_event r e) k.
Proof.
  destruct e as [| | | | | |c]; try done.
  destruct c as [k'|k' vals|k' seconds|k']; try done; cbn [apply_event].
  - destruct k, k'; unfold smembers; cbn; set_solver.
  - unfold expire. destruct (key_get r k') as [s|] eqn:Hk; [|done].
    destruct k, k'; unfold smembers; cbn in *; rewrite ?Hk; done.
Qed.

Lemma smembers_replay (r : Redis) (t : list Event) (k : Key) :
  smembers r k ⊆ smembers (replay r t) k.
Proof.
  revert r. induction t as [|e t IH]; intros r; [done|].
  cbn [replay fold_left]. etrans; [apply (smembers_apply_event r e k)|apply IH].
Qed.

Lemma replay_app (r : Redis) (t1 t2 : list Event) :
  replay r (t1 ++ t2) = replay (replay r t1) t2.
Proof. apply fold_left_app. Qed.

Lemma replay_no_redis (r : Redis) (t : list Event) :
  Forall (fun e => is_redis e = false) t → replay r t = r.
Proof.
  induction 1 as [|e t He _ IH]; [done|].
  cbn [replay fold_left]. destruct e; try done.
Qed.

(** ** What the kinds of events exclude *)

Lemma fetch_events_no_redis (t : list Event) :
  Forall (fun e => is_fetch_event e = true) t →
  Forall (fun e => is_redis e = false) t.
Proof. intros H. eapply Forall_impl; [exact H|]. by intros []. Qed.

Lemma fetch_events_sent (t : list Event) :
  Forall (fun e => is_fetch_event e = true) t → sent t = [].
Proof.
  induction 1 as [|e t He _ IH]; [done|].
  rewrite sent_cons. by destruct e.
Qed.

Lemma no_redis_no_write (k : Key) (t : list Event) :
  Forall (fun e => is_redis e = false) t →
  Forall (fun e => writes_key k e = false) t.
Proof. intros H. eapply Forall_impl; [exact H|]. by intros []. Qed.

(** ** The store follows the events *)

Lemma follows_bind {A B} (m : M A) (f : A → M B) :
  store_follows_events m → (∀ a, store_follows_events (f a)) →
  store_follows_events (m ≫= f).
Proof.
  intros Hm Hf w. unfold mbind, M_bind, bind.
  destruct (result (m w)) as [a|e]; cbn [result world events]; [|apply Hm].
  by rewrite replay_app, Hf, Hm.
Qed.

Lemma follows_try {A} (m : M A) : store_follows_events m → store_follows_events (try_ m).
Proof. intros Hm w. apply Hm. Qed.

Lemma follows_ret {A} (a : A) : store_follows_events (ret a).
Proof. done. Qed.

Lemma follows_throw {A} (e : string) : store_follows_events (@throw A e).
Proof. done. Qed.

Lemma follows_emit (e : Event) : is_redis e = false → store_follows_events (emit e).
Proof. intros H w. by destruct e. Qed.

Lemma follows_redis_sadd (k : Key) (vals : list string) :
  store_follows_events (redis_sadd k vals).
Proof. done. Qed.

Lemma follows_redis_expire (k : Key) (seconds : N) :
  store_follows_events (redis_expire k seconds).
Proof. done. Qed.

Lemma follows_redis_smembers (k : Key) : store_follows_events (redis_smembers k).
Proof. done. Qed.

Lemma follows_redis_exists (k : Key) : store_follows_events (redis_exists k).
Proof. done. Qed.

Lemma follows_send E (m : Message) : store_follows_events (sendTelegramMessage E m).
Proof. done. Qed.

Lemma follows_navigate E attempt address site :
  store_follows_events (navigate_and_extract E attempt address site).
Proof. done. Qed.

Ltac follows :=
  repeat first
    [ progress intros
    | simple apply follows_bind | simple apply follows_try
    | simple apply follows_ret | simple apply follows_throw
    | simple apply follows_emit; reflexivity
    | simple apply follows_redis_smembers | simple apply follows_redis_exists
    | simple apply follows_send | simple apply follows_navigate
    | simple apply follows_redis_sadd | simple apply follows_redis_expire
    | case_match ].

Lemma follows_scrape_attempts E address site attempts lastError :
  store_follows_events (scrape_attempts E address site attempts lastError).
Proof.
  revert lastError. induction attempts as [|a attempts IH]; intros lastError;
    cbn [scrape_attempts]; unfold delay, console_error; follows. apply IH.
Qed.

Lemma follows_scrape_all E urls allListingsMap :
  store_follows_events (scrape_all E urls allListingsMap).
Proof.
  revert allListingsMap. induction urls as [|address urls IH]; intros allListingsMap;
    cbn [scrape_all]; unfold scrapeListings; follows;
    solve [apply follows_scrape_attempts | apply IH].
Qed.

Lemma follows_notify_each E listings : store_follows_events (notify_each E listings).
Proof.
  induction listings as [|l listings IH]; cbn [notify_each];
    unfold notifyNewListing, delay, console_error; follows; apply IH.
Qed.

Lemma follows_notifyNewListings E listings :
  store_follows_events (notifyNewListings E listings).
Proof.
  unfold notifyNewListings, delay. follows; apply follows_notify_each.
Qed.

Lemma follows_main E : store_follows_events (main E).
Proof.
  unfold main, validateEnv, notifyZeroListings, hasSeenIds, addSeenIds,
    addSeenFingerprints, notifyInitialized, getSeenIds, getSeenFingerprints.
  follows; solve [apply follows_scrape_all | apply follows_notifyNewListings].
Qed.

(** The store a run ends with is the initial store changed by the Redis
    commands of its trace, in order. *)
Lemma run_store_follows_trace E w :
  redis (final (run E w)) = replay (redis w) (trace (run E w)).
Proof.
  unfold run. pose proof (follows_main E w) as Hmain.
  destruct (result (main E w)) as [[]|message]; cbn [final trace]; [done|].
  rewrite replay_app, <-Hmain.
  assert (store_follows_events
            (console_error "Fatal error:" message ;; notifyError E message)) as H.
  { unfold notifyError, console_error. follows. }
  apply H.
Qed.

(* ===================================================================== *)
(** * The run *)
(* ===================================================================== *)

Lemma handler_spec E (message : string) (w : World) :
  let o := (console_error "Fatal error:" message ;; notifyError E message) w in
  redis (world o) = redis w ∧ events o = handler_events E (posts w) message.
Proof.
  unfold notifyError, handler_events, console_error, mbind, M_bind, bind, try_.
  cbn. destruct (telegram_response E (posts w)) as [[status body]|]; done.
Qed.

Lemma run_ok E w :
  result (main E w) = Ok tt →
  run E w = mkRunOutcome 0 (world (main E w)) (events (main E w)).
Proof. intros H. unfold run. by rewrite H. Qed.

Lemma run_thrown E w (message : string) :
  result (main E w) = Thrown message →
  exit_code (run E w) = 1 ∧
  redis (final (run E w)) = redis (world (main E w)) ∧
  trace (run E w)
    = events (main E w) ++ handler_events E (posts (world (main E w))) message.
Proof.
  intros H. unfold run. rewrite H. cbn [exit_code final trace].
  destruct (handler_spec E message (world (main E w))) as [-> ->]. done.
Qed.

Lemma exit_code_result E w :
  exit_code (run E w) = 0 ↔ result (main E w) = Ok tt.
Proof.
  unfold run. destruct (result (main E w)) as [[]|message]; cbn; split; done.
Qed.

Lemma sent_handler_events E k message :
  sent (handler_events E k message) = [MsgError (escapeHtml message)].
Proof.
  unfold handler_events. rewrite !sent_cons.
  by destruct (telegram_response E k) as [[status body]|].
Qed.

Lemma handler_events_no_redis E k message :
  Forall (fun e => is_redis e = false) (handler_events E k message).
Proof.
  unfold handler_events.
  destruct (telegram_response E k) as [[status body]|]; by repeat constructor.
Qed.

(** What a successful fetch leaves: the store and the POST counter are
    untouched, the events are those of a fetch. *)
Lemma fetch_frame E w :
  let o1 := scrape_all E (collectUrls E) [] w in
  redis (world o1) = redis w ∧ posts (world o1) = posts w ∧
  Forall (fun e => is_fetch_event e = true) (events o1).
Proof.
  destruct (scrape_all_frame E (collectUrls E) []) as (Hr & Hp & He).
  split_and!; [apply Hr|apply Hp|apply He].
Qed.

(** A run with zero listings, a transport that rejects every POST: the
    exit code is 1. *)
Lemma zero_listings_exit_1_when_transport_down :
  ¬ spec_zero_listings Sample.env_empty_down Sample.w_seeded.
Proof.
  intros Hspec. destruct Hspec as (_ & _ & Hexit).
  - split; vm_compute; reflexivity.
  - vm_compute in Hexit. discriminate.
Qed.

(** The zero-listings path, evaluated: the fetch, then the one POST of
    the warning. *)
Lemma main_zero_outcome E (w : World) :
  fetched E w [] →
  let o1 := scrape_all E (collectUrls E) [] w in
  result (main E w)
    = match telegram_response E (posts w) with
      | None => Ok tt
      | Some (status, body) => Thrown (telegram_error status body)
      end ∧
  redis (world (main E w)) = redis w ∧
  posts (world (main E w)) = S (posts w) ∧
  events (main E w) = events o1 ++ [EvSend MsgZeroListings].
Proof.
  intros Hf o1. rewrite (main_zero E w Hf).
  destruct (fetch_frame E w) as (Hr & Hp & _). fold o1 in Hr, Hp |- *.
  unfold after, prepend, notifyZeroListings.
  cbn [sendTelegramMessage result world events redis posts].
  rewrite Hp, Hr.
  by destruct (telegram_response E (posts w)) as [[status body]|].
Qed.

(** A zero-listings run leaves the store alone and dispatches nothing. *)
Lemma zero_listings_frame E (w : World) :
  fetched E w [] →
  Forall (fun e => is_redis e = false) (trace (run E w)) ∧
  redis (final (run E w)) = redis w ∧
  (∀ m, m ∈ sent (trace (run E w)) → is_dispatch m = false).
Proof.
  intros Hf. destruct (main_zero_outcome E w Hf) as (Hres & Hr & Hp & Hev).
  destruct (fetch_frame E w) as (_ & _ & He).
  assert (∀ tail, Forall (fun e => is_redis e = false) tail →
            Forall (fun e => is_redis e = false) (events (main E w) ++ tail)) as Hno.
  { intros tail Htail. rewrite Hev, !Forall_app.
    split_and!; [by apply fetch_events_no_redis|by repeat constructor|done]. }
  assert (sent (events (main E w)) = [MsgZeroListings]) as Hsent.
  { by rewrite Hev, sent_app, fetch_events_sent. }
  destruct (result (main E w)) as [[]|message] eqn:Hmain.
  - rewrite (run_ok E w Hmain). cbn [final trace].
    split_and!; [rewrite <-(app_nil_r (events _)); by apply Hno|done|].
    intros m Hm. rewrite Hsent in Hm. by apply list_elem_of_singleton in Hm as ->.
  - destruct (run_thrown E w _ Hmain) as (_ & -> & ->).
    split_and!; [apply Hno, handler_events_no_redis|done|].
    intros m Hm. rewrite sent_app, Hsent, sent_handler_events in Hm.
    repeat (apply elem_of_cons in Hm as [->|Hm]; [done|]).
    by apply elem_of_nil in Hm.
Qed.

(** C8 (as the code has it).  When every fetch succeeds and the aggregated
    batch is empty, the run does not touch the store (no command at all,
    so no comparison and no write), and its first POST is the
    zero-listings warning.  When the transport accepts that POST it is the
    only one and the exit code is 0; when the transport rejects it, the
    failure reaches the top-level handler, which attempts one error
    notification, and the exit code is 1. *)
Theorem zero_listings_run E (w : World) :
  fetched E w [] →
  Forall (fun e => is_redis e = false) (trace (run E w)) ∧
  redis (final (run E w)) = redis w ∧
  sent (trace (run E w))
    = MsgZeroListings ::
      match telegram_response E (posts w) with
      | None => []
      | Some (status, body) => [MsgError (escapeHtml (telegram_error status body))]
      end ∧
  (exit_code (run E w) = 0 ↔ telegram_response E (posts w) = None).
Proof.
  intros Hf.
  destruct (zero_listings_frame E w Hf) as (Hnoredis & Hfinal & _).
  destruct (main_zero_outcome E w Hf) as (Hres & _ & _ & Hev).
  destruct (fetch_frame E w) as (_ & _ & He).
  split_and!; [done|done| |].
  - destruct (telegram_response E (posts w)) as [[status body]|] eqn:Htg.
    + destruct (run_thrown E w _ Hres) as (_ & _ & ->).
      rewrite Hev, !sent_app, fetch_events_sent, sent_handler_events by done. done.
    + rewrite (run_ok E w Hres). cbn [trace].
      by rewrite Hev, sent_app, fetch_events_sent.
  - rewrite exit_code_result, Hres.
    by destruct (telegram_response E (posts w)) as [[status body]|].
Qed.

Lemma zero_listings_run_witness :
  sent (trace (run Sample.env_empty Sample.w_seeded)) = [MsgZeroListings] ∧
  exit_code (run Sample.env_empty Sample.w_seeded) = 0.
Proof.
  destruct (zero_listings_run Sample.env_empty Sample.w_seeded) as (_ & _ & Hs & He).
  - split; vm_compute; reflexivity.
  - split; [exact Hs|]. apply He. reflexivity.
Defined.

(** C2.  On a first run (the identity key is absent) with a non-empty
    aggregated batch, the identity set becomes the ids of the whole batch
    and the fingerprint set gains the fingerprints of the whole batch,
    so every listing is seeded; the first message handed to the transport
    is the initialization summary, it is handed over once, and no listing
    or summary-of-new-listings message is sent.  (When the transport
    rejects the initialization message, the only other message is the
    error notification of the top-level handler.) *)
Theorem first_run_seeds E (w : World) (allListings : list Listing) :
  fetched E w allListings → allListings ≠ [] → first_run w →
  smembers (redis (final (run E w))) REDIS_KEY = list_to_set (id <$> allListings) ∧
  smembers (redis (final (run E w))) FINGERPRINT_KEY
    = smembers (redis w) FINGERPRINT_KEY ∪ list_to_set (getFingerprint <$> allListings) ∧
  (∀ l, l ∈ allListings →
     id l ∈ smembers (redis (final (run E w))) REDIS_KEY ∧
     getFingerprint l ∈ smembers (redis (final (run E w))) FINGERPRINT_KEY) ∧
  sent (trace (run E w))
    = MsgInitialized (length allListings) (length (collectUrls E)) ::
      match telegram_response E (posts w) with
      | None => []
      | Some (status, body) => [MsgError (escapeHtml (telegram_error status body))]
      end ∧
  (∀ m, m ∈ sent (trace (run E w)) → is_dispatch m = false).
Proof.
  intros Hf Hne Hfirst. pose proof (main_first_run E w _ Hf Hne Hfirst) as Hmain.
  destruct (fetch_frame E w) as (Hr & Hp & He).
  set (o1 := scrape_all E (collectUrls E) [] w) in *. cbv zeta in Hmain.
  set (seeded := add_and_expire (add_and_expire _ _ _) _ _) in Hmain.
  unfold prepend, notifyInitialized in Hmain.
  cbn [sendTelegramMessage result world events set_redis redis posts] in Hmain.
  rewrite Hp in Hmain.
  assert (smembers seeded REDIS_KEY = list_to_set (id <$> allListings)) as Hids.
  { unfold seeded. rewrite smembers_add_and_expire_ne by done.
    rewrite smembers_add_and_expire, smembers_first_run by done.
    by rewrite (left_id_L ∅ (∪)). }
  assert (smembers seeded FINGERPRINT_KEY
          = smembers (redis w) FINGERPRINT_KEY
              ∪ list_to_set (getFingerprint <$> allListings)) as Hfps.
  { unfold seeded. rewrite smembers_add_and_expire.
    by rewrite smembers_add_and_expire_ne. }
  assert (redis (final (run E w)) = seeded ∧
          sent (trace (run E w))
          = MsgInitialized (length allListings) (length (collectUrls E)) ::
            match telegram_response E (posts w) with
            | None => []
            | Some (status, body) =>
                [MsgError (escapeHtml (telegram_error status body))]
            end) as [Hfinal Hsent].
  { destruct (telegram_response E (posts w)) as [[status body]|] eqn:Htg.
    - assert (result (main E w) = Thrown (telegram_error status body)) as Hres
        by (by rewrite Hmain).
      destruct (run_thrown E w _ Hres) as (_ & Hfinal & Htrace).
      rewrite Hfinal, Htrace, Hmain. cbn [result world events redis].
      split; [done|].
      rewrite !sent_app, fetch_events_sent, sent_handler_events by done. done.
    - assert (result (main E w) = Ok tt) as Hres by (by rewrite Hmain).
      rewrite (run_ok E w Hres), Hmain. cbn [final trace world events redis].
      split; [done|].
      by rewrite !sent_app, fetch_events_sent. }
  rewrite Hfinal, Hids, Hfps, Hsent.
  split_and!; [done|done| |done|].
  - intros l Hl. split.
    + apply elem_of_list_to_set, list_elem_of_fmap. eauto.
    + apply elem_of_union_r, elem_of_list_to_set, list_elem_of_fmap. eauto.
  - intros m Hm.
    destruct (telegram_response E (posts w)) as [[status body]|];
      repeat (apply elem_of_cons in Hm as [->|Hm]; [done|]);
      by apply elem_of_nil in Hm.
Qed.

Lemma first_run_seeds_witness :
  smembers (redis (final (run Sample.env_known Sample.w_fresh))) REDIS_KEY
    = list_to_set (id <$> [Sample.l1001; Sample.l1002]) ∧
  sent (trace (run Sample.env_known Sample.w_fresh)) = [MsgInitialized 2 1].
Proof.
  destruct (first_run_seeds Sample.env_known Sample.w_fresh
              [Sample.l1001; Sample.l1002]) as (Hids & _ & _ & Hsent & _).
  - split; vm_compute; reflexivity.
  - discriminate.
  - reflexivity.
  - split; [exact Hids|exact Hsent].
Defined.

(** C4.  After a non-first run that completes (exit code 0), the
    fingerprint set holds the fingerprint of every listing of the
    aggregated batch, whatever its classification. *)
Theorem fingerprints_synced E (w : World) (allListings : list Listing) (l : Listing) :
  fetched E w allListings → ¬ first_run w →
  exit_code (run E w) = 0 →
  l ∈ allListings →
  getFingerprint l ∈ smembers (redis (final (run E w))) FINGERPRINT_KEY.
Proof.
  intros Hf Hfirst Hexit Hl.
  assert (allListings ≠ []) as Hne by (intros ->; by apply elem_of_nil in Hl).
  assert (getFingerprint l ∈@{gset string} list_to_set (getFingerprint <$> allListings))
    as Hfp by (apply elem_of_list_to_set, list_elem_of_fmap; eauto).
  apply exit_code_result in Hexit. rewrite (run_ok E w Hexit). cbn [final].
  destruct (decide (newByIdListings allListings (smembers (redis w) REDIS_KEY) = []))
    as [Hnew|Hnew].
  - rewrite (main_no_new E w _ Hf Hne Hfirst Hnew). cbn [world set_redis redis].
    rewrite smembers_add_and_expire. by apply elem_of_union_r.
  - pose proof (main_new E w _ Hf Hfirst Hnew) as Hmain. cbv zeta in Hmain.
    rewrite Hmain in Hexit |- *.
    match goal with |- context [ result ?d ] => destruct (result d) as [[]|e] end;
      [|done].
    cbn [world set_redis redis].
    rewrite smembers_add_and_expire. by apply elem_of_union_r.
Qed.

Lemma fingerprints_synced_witness :
  getFingerprint Sample.l2001
    ∈ smembers (redis (final (run Sample.env_dedup Sample.w_seeded))) FINGERPRINT_KEY.
Proof.
  apply (fingerprints_synced Sample.env_dedup Sample.w_seeded
           [Sample.l1001; Sample.l9999; Sample.l2001]).
  - split; vm_compute; reflexivity.
  - discriminate.
  - vm_compute. reflexivity.
  - apply list_elem_of_In. cbn. tauto.
Defined.

Lemma newById_nil_of_all_seen (allListings : list Listing) (seenIds : gset string) :
  (∀ l, l ∈ allListings → id l ∈ seenIds) →
  newByIdListings allListings seenIds = [].
Proof.
  intros Hall. unfold newByIdListings.
  induction allListings as [|l rest IH]; [done|].
  rewrite filter_cons_False.
  - apply IH. intros l' Hl'. apply Hall. by right.
  - intros Hn. apply Hn, Hall. by left.
Qed.

(** C10.  On a non-first run in which every aggregated listing's id is
    already in the identity set, the identity key is left exactly as it
    was (members and time to live) and no command of the run adds to it or
    refreshes its expiry; the fingerprint set gains the fingerprints of
    the whole batch, and for a non-empty batch the run ends with the add
    and the expiry refresh on the fingerprint key. *)
Theorem seen_batch_leaves_identity_set E (w : World) (allListings : list Listing) :
  fetched E w allListings → ¬ first_run w →
  (∀ l, l ∈ allListings → id l ∈ smembers (redis w) REDIS_KEY) →
  seen_ids (redis (final (run E w))) = seen_ids (redis w) ∧
  Forall (fun e => writes_key REDIS_KEY e = false) (trace (run E w)) ∧
  smembers (redis (final (run E w))) FINGERPRINT_KEY
    = smembers (redis w) FINGERPRINT_KEY ∪ list_to_set (getFingerprint <$> allListings) ∧
  (allListings ≠ [] →
     exit_code (run E w) = 0 ∧
     key_get (redis (final (run E w))) FINGERPRINT_KEY ≫= ttl = Some TTL_SECONDS ∧
     ∃ t, trace (run E w)
          = t ++ [EvRedis (SADD FINGERPRINT_KEY (getFingerprint <$> allListings));
                  EvRedis (EXPIRE FINGERPRINT_KEY TTL_SECONDS)]).
Proof.
  intros Hf Hfirst Hseen.
  destruct (fetch_frame E w) as (Hr & Hp & He).
  destruct (decide (allListings = [])) as [->|Hne].
  - destruct (zero_listings_frame E w Hf) as (Hnoredis & Hfinal & _).
    rewrite Hfinal. split_and!; [done|by apply no_redis_no_write| |done].
    cbn. by rewrite (right_id_L ∅ (∪)).
  - pose proof (newById_nil_of_all_seen _ _ Hseen) as Hnew.
    pose proof (main_no_new E w _ Hf Hne Hfirst Hnew) as Hmain. cbv zeta in Hmain.
    assert (result (main E w) = Ok tt) as Hres by (by rewrite Hmain).
    rewrite (run_ok E w Hres), Hmain. cbn [exit_code final trace world events].
    cbn [set_redis redis].
    split_and!.
    + done.
    + rewrite Forall_app. split.
      * by apply no_redis_no_write, fetch_events_no_redis.
      * by repeat constructor.
    + apply smembers_add_and_expire.
    + intros _. split_and!; [done|apply ttl_add_and_expire|].
      eexists (_ ++ [_; _; _]). by rewrite <-app_assoc.
Qed.

Lemma seen_batch_leaves_identity_set_witness :
  seen_ids (redis (final (run Sample.env_known Sample.w_seeded)))
    = seen_ids (redis Sample.w_seeded).
Proof.
  apply (seen_batch_leaves_identity_set Sample.env_known Sample.w_seeded
           [Sample.l1001; Sample.l1002]).
  - split; vm_compute; reflexivity.
  - discriminate.
  - intros l Hl. apply list_elem_of_In in Hl. cbn in Hl.
    destruct Hl as [<-|[<-|[]]]; vm_compute; reflexivity.
Defined.

(* ===================================================================== *)
(** * Order of the identity write and the dispatch *)
(* ===================================================================== *)

Lemma elem_of_sent (m : Message) (t : list Event) : m ∈ sent t ↔ EvSend m ∈ t.
Proof.
  unfold sent. rewrite list_elem_of_omap. split.
  - intros (e & He & Hm). destruct e; try done. by injection Hm as ->.
  - intros He. by exists (EvSend m).
Qed.

(** The messages of a dispatch: the summary and listing messages of the
    listings it was given. *)
Lemma notifyNewListings_sent E (listings : list Listing) (w : World) (m : Message) :
  m ∈ sent (events (notifyNewListings E listings w)) →
  m = MsgSummary (length listings) ∨ ∃ l, l ∈ listings ∧ m = MsgNewListing l.
Proof.
  intros Hm.
  assert (m ∈ MsgNewListing <$> listings → ∃ l, l ∈ listings ∧ m = MsgNewListing l)
    as Heach.
  { intros (l & -> & Hl)%list_elem_of_fmap. eauto. }
  destruct (decide (length listings < 5)) as [Hsmall|Hbig].
  - destruct (notifyNewListings_small E listings w Hsmall) as [_ Hev].
    rewrite Hev, sent_each in Hm by (intros; apply sent_listing_events). auto.
  - assert (5 ≤ length listings) as Hlen by lia.
    destruct (telegram_response E (posts w)) as [[status body]|] eqn:Htg.
    + destruct (notifyNewListings_summary_fails E listings w _ _ Hlen Htg) as [_ Hev].
      rewrite Hev in Hm. apply list_elem_of_singleton in Hm. auto.
    + destruct (notifyNewListings_summary_ok E listings w Hlen Htg) as [_ Hev].
      rewrite Hev, !sent_cons in Hm.
      rewrite sent_each in Hm by (intros; apply sent_listing_events).
      apply elem_of_cons in Hm as [->|Hm]; auto.
Qed.

Lemma split_after_silent_prefix (before rest pre post : list Event) (m : Message) :
  sent before = [] →
  before ++ rest = pre ++ EvSend m :: post →
  ∃ pre', pre = before ++ pre' ∧ rest = pre' ++ EvSend m :: post.
Proof.
  revert pre. induction before as [|e before IH]; intros pre Hsilent Heq.
  - by exists pre.
  - rewrite sent_cons in Hsilent.
    destruct pre as [|e' pre].
    + cbn in Heq. injection Heq as -> _. done.
    + cbn in Heq. injection Heq as <- Heq.
      destruct (IH pre) as (pre' & -> & ->); [by destruct e|done|].
      by exists pre'.
Qed.

(** C3.  On a non-first run, at every point of the trace where a listing
    message or the summary of new listings is handed to the transport, the
    add of the ids of all new-by-id listings (reposts included) has
    already been sent to the identity key, and the identity set at that
    point holds every one of those ids; in particular it holds the id of
    the listing being dispatched. *)
Theorem ids_written_before_dispatch E (w : World) (allListings : list Listing)
    (pre post : list Event) (m : Message) :
  fetched E w allListings → ¬ first_run w →
  trace (run E w) = pre ++ EvSend m :: post →
  is_dispatch m = true →
  let newById := newByIdListings allListings (smembers (redis w) REDIS_KEY) in
  EvRedis (SADD REDIS_KEY (id <$> newById)) ∈ pre ∧
  (∀ l, l ∈ newById → id l ∈ smembers (replay (redis w) pre) REDIS_KEY) ∧
  (∀ l, m = MsgNewListing l →
        l ∈ newById ∧ id l ∈ smembers (replay (redis w) pre) REDIS_KEY).
Proof.
  intros Hf Hfirst Htrace Hm newById.
  destruct (fetch_frame E w) as (Hr & Hp & He).
  assert (EvSend m ∈ trace (run E w)) as Hin.
  { rewrite Htrace. apply elem_of_app. right. by left. }
  apply elem_of_sent in Hin.
  destruct (decide (allListings = [])) as [->|Hne].
  { destruct (zero_listings_frame E w Hf) as (_ & _ & Hsent).
    apply Hsent in Hin. congruence. }
  destruct (decide (newById = [])) as [Hnil|Hnew].
  { pose proof (main_no_new E w _ Hf Hne Hfirst Hnil) as Hmain. cbv zeta in Hmain.
    assert (result (main E w) = Ok tt) as Hres by (by rewrite Hmain).
    rewrite (run_ok E w Hres), Hmain in Hin. cbn [trace events] in Hin.
    rewrite sent_app, fetch_events_sent in Hin by done.
    by apply elem_of_nil in Hin. }
  pose proof (main_new E w _ Hf Hfirst Hnew) as Hmain. cbv zeta in Hmain.
  fold newById in Hmain.
  set (before := events (scrape_all E (collectUrls E) [] w) ++ _) in Hmain.
  set (genuinelyNew := genuinelyNew_of allListings _ _) in Hmain.
  set (d := (if (0 <? length genuinelyNew)%nat
             then notifyNewListings E genuinelyNew else ret tt) (set_redis _ _))
    in Hmain.
  assert (sent before = []) as Hsilent.
  { unfold before. by rewrite sent_app, fetch_events_sent. }
  assert (∃ tail, trace (run E w) = before ++ events d ++ tail ∧
                  ∀ m', m' ∈ sent tail → is_dispatch m' = false)
    as (tail & Htr & Htail).
  { destruct (result d) as [[]|e] eqn:Hd.
    - assert (result (main E w) = Ok tt) as Hres by (by rewrite Hmain).
      rewrite (run_ok E w Hres), Hmain. cbn [trace events].
      eexists. split; [done|]. intros m' Hm'. by apply elem_of_nil in Hm'.
    - assert (result (main E w) = Thrown e) as Hres by (by rewrite Hmain).
      destruct (run_thrown E w _ Hres) as (_ & _ & ->). rewrite Hmain.
      cbn [world events]. rewrite <-app_assoc.
      eexists. split; [done|]. intros m' Hm'.
      rewrite sent_handler_events in Hm'.
      by apply list_elem_of_singleton in Hm' as ->. }
  rewrite Htr in Htrace.
  destruct (split_after_silent_prefix _ _ _ _ _ Hsilent Htrace) as (pre' & -> & Hrest).
  assert (∀ l, l ∈ newById → id l ∈ smembers (replay (redis w) (before ++ pre')) REDIS_KEY)
    as Hids.
  { intros l Hl. rewrite replay_app.
    apply (smembers_replay _ pre' REDIS_KEY).
    unfold before. rewrite replay_app.
    rewrite (replay_no_redis _ (events _)) by (by apply fetch_events_no_redis).
    cbn [replay fold_left apply_event].
    change (expire (sadd ?r ?k ?v) ?k TTL_SECONDS) with (add_and_expire r k v).
    rewrite smembers_add_and_expire.
    apply elem_of_union_r, elem_of_list_to_set, list_elem_of_fmap. eauto. }
  split_and!; [|done|].
  - apply elem_of_app. left. unfold before. apply elem_of_app. right.
    do 3 right. by left.
  - intros l ->. assert (l ∈ newById) as Hl; [|by auto].
    assert (MsgNewListing l ∈ sent (events d ++ tail)) as Hd.
    { apply elem_of_sent. rewrite Hrest. apply elem_of_app. right. by left. }
    rewrite sent_app in Hd. apply elem_of_app in Hd as [Hd|Hd];
      [|by apply Htail in Hd].
    unfold d in Hd.
    destruct (0 <? length _)%nat; [|by apply elem_of_nil in Hd].
    apply notifyNewListings_sent in Hd as [Hd|(l' & Hl' & Hd)]; [done|].
    injection Hd as ->.
    by apply genuinelyNew_new_by_id in Hl'.
Qed.

Lemma ids_written_before_dispatch_witness :
  "2001" ∈ smembers
    (replay (redis Sample.w_seeded)
       (take 8 (trace (run Sample.env_dedup Sample.w_seeded)))) REDIS_KEY.
Proof.
  apply (ids_written_before_dispatch Sample.env_dedup Sample.w_seeded
           [Sample.l1001; Sample.l9999; Sample.l2001]
           (take 8 (trace (run Sample.env_dedup Sample.w_seeded)))
           (drop 9 (trace (run Sample.env_dedup Sample.w_seeded)))
           (MsgNewListing Sample.l2001)) with (l := Sample.l2001).
  - split; vm_compute; reflexivity.
  - discriminate.
  - vm_compute. reflexivity.
  - reflexivity.
  - reflexivity.
Defined.

(* ===================================================================== *)
(** * The fetch ([scrapeListings]) *)
(* ===================================================================== *)

Lemma includes_append_r (a s sub : string) :
  Js.includes s sub = true → Js.includes (a +:+ s) sub = true.
Proof.
  intros H. induction a as [|c a IH]; [done|].
  change (String c a +:+ s) with (String c (a +:+ s)).
  cbn [Js.includes]. rewrite IH. apply orb_true_r.
Qed.

Lemma includes_self (s : string) : Js.includes s s = true.
Proof.
  apply includes_startsWith. induction s as [|c s IH]; [done|].
  cbn [Js.startsWith]. by rewrite decide_True.
Qed.

(** An address that does not parse or whose host is not supported is
    rejected before any attempt. *)
Lemma scrapeListings_rejected E (address : string) (w : World) :
  url_hostname E address ≫= extractFn_of = None →
  events (scrapeListings E address w) = [] ∧
  ∃ message, result (scrapeListings E address w) = Thrown message.
Proof.
  unfold scrapeListings. intros H.
  destruct (url_hostname E address) as [domain|]; cbn in H; [|eauto].
  rewrite H. eauto.
Qed.

(** One turn of the retry loop. *)
Lemma scrape_attempts_cons E (address : string) (site : Site) (attempt : nat)
    (rest : list nat) (lastError : option string) (w : World) :
  let w' := {| redis := redis w; posts := posts w;
               navigations := S (navigations w) |} in
  scrape_attempts E address site (attempt :: rest) lastError w
  = match page_result E (navigations w) with
    | inr listings =>
        mkOutcome (Ok listings) w' [EvLaunch; EvNavigate attempt address site; EvClose]
    | inl err =>
        prepend
          ([EvLaunch; EvNavigate attempt address site;
            EvConsoleError ("[Attempt " +:+ pretty attempt +:+ "] Scrape failed:") err]
             ++ (if (attempt <? 2)%nat then [EvDelay RETRY_DELAY] else [])
             ++ [EvClose])
          (scrape_attempts E address site rest (Some err) w')
    end.
Proof.
  intros w'. cbn [scrape_attempts]. run_step.
  erewrite bind_run by (unfold try_, navigate_and_extract; reflexivity). cbv beta.
  cbn [result]. fold w'.
  destruct (page_result E (navigations w)) as [err|listings].
  - unfold console_error, delay. run_step.
    destruct (attempt <? 2)%nat; run_step; run_step;
      unfold prepend; cbn [result world events app]; done.
  - run_step. unfold prepend. done.
Qed.

(** C7.  For every source address the fetch makes at most two adapter
    attempts.  For a supported address: when the first attempt succeeds
    its listings are returned and there is no second attempt; when it
    fails there is exactly one more attempt, after a delay of 10 s, whose
    listings are returned when it succeeds; when both fail the fetch
    throws an error whose message includes the address and the message of
    the last failure. *)
Theorem fetch_retries_once E (address : string) (w : World) :
  let o := scrapeListings E address w in
  navigation_count (events o) ≤ 2 ∧
  ∀ domain site,
    url_hostname E address = Some domain → extractFn_of domain = Some site →
    match page_result E (navigations w) with
    | inr listings =>
        result o = Ok listings ∧
        navigation_count (events o) = 1 ∧
        events o = [EvLaunch; EvNavigate 1 address site; EvClose]
    | inl e1 =>
        navigation_count (events o) = 2 ∧
        ∃ outcome2,
          events o
            = [EvLaunch; EvNavigate 1 address site;
               EvConsoleError "[Attempt 1] Scrape failed:" e1;
               EvDelay 10000; EvClose;
               EvLaunch; EvNavigate 2 address site] ++ outcome2 ∧
          match page_result E (S (navigations w)) with
          | inr listings => result o = Ok listings ∧ outcome2 = [EvClose]
          | inl e2 =>
              outcome2 = [EvConsoleError "[Attempt 2] Scrape failed:" e2; EvClose] ∧
              ∃ message,
                result o = Thrown message ∧
                Js.includes message address = true ∧
                Js.includes message e2 = true
          end
    end.
Proof.
  intros o.
  assert (∀ domain site,
            url_hostname E address = Some domain → extractFn_of domain = Some site →
            o = match page_result E (navigations w) with
                | inr listings =>
                    mkOutcome (Ok listings)
                      {| redis := redis w; posts := posts w;
                         navigations := S (navigations w) |}
                      [EvLaunch; EvNavigate 1 address site; EvClose]
                | inl e1 =>
                    prepend
                      [EvLaunch; EvNavigate 1 address site;
                       EvConsoleError "[Attempt 1] Scrape failed:" e1;
                       EvDelay 10000; EvClose]
                      match page_result E (S (navigations w)) with
                      | inr listings =>
                          mkOutcome (Ok listings)
                            {| redis := redis w; posts := posts w;
                               navigations := S (S (navigations w)) |}
                            [EvLaunch; EvNavigate 2 address site; EvClose]
                      | inl e2 =>
                          mkOutcome
                            (Thrown ("Failed to scrape " +:+ address
                                       +:+ " after 2 attempts: " +:+ e2))
                            {| redis := redis w; posts := posts w;
                               navigations := S (S (navigations w)) |}
                            [EvLaunch; EvNavigate 2 address site;
                             EvConsoleError "[Attempt 2] Scrape failed:" e2; EvClose]
                      end
                end) as Hform.
  { intros domain site Hhost Hsite. unfold o, scrapeListings.
    rewrite Hhost, Hsite, scrape_attempts_cons.
    destruct (page_result E (navigations w)) as [e1|listings]; [|done].
    rewrite scrape_attempts_cons. cbn [navigations].
    destruct (page_result E (S (navigations w))) as [e2|listings]; done. }
  split.
  - destruct (url_hostname E address ≫= extractFn_of) as [site|] eqn:Hsup.
    + destruct (url_hostname E address) as [domain|] eqn:Hhost; [|done].
      cbn in Hsup. rewrite (Hform domain site eq_refl Hsup).
      destruct (page_result E (navigations w)); [|cbn; lia].
      destruct (page_result E (S (navigations w))); cbn; lia.
    + destruct (scrapeListings_rejected E address w Hsup) as [Hev _].
      fold o in Hev. rewrite Hev. cbn. lia.
  - intros domain site Hhost Hsite. rewrite (Hform domain site Hhost Hsite).
    destruct (page_result E (navigations w)) as [e1|listings]; [|done].
    split.
    { destruct (page_result E (S (navigations w))); done. }
    destruct (page_result E (S (navigations w))) as [e2|listings].
    + eexists. split; [done|]. split; [done|].
      eexists. split; [done|]. split.
      * apply (includes_append_r "Failed to scrape ").
        apply includes_startsWith, startsWith_app.
      * apply (includes_append_r "Failed to scrape "), includes_append_r.
        apply (includes_append_r " after 2 attempts: "), includes_self.
    + eexists. split; [done|]. done.
Qed.

Lemma fetch_retries_once_witness :
  result (scrapeListings Sample.env_flaky Sample.search Sample.w_seeded)
    = Ok [Sample.l2001].
Proof.
  destruct (fetch_retries_once Sample.env_flaky Sample.search Sample.w_seeded)
    as [_ H].
  specialize (H "www.njuskalo.hr" Njuskalo eq_refl eq_refl).
  cbn [page_result Sample.env_flaky navigations Sample.w_seeded] in H.
  destruct H as (_ & outcome2 & _ & Hres & _). exact Hres.
Defined.

(* ===================================================================== *)
(** * Validation ([validateEnv], [collectUrls]) *)
(* ===================================================================== *)

Lemma main_validation_fails E (w : World) (message : string) :
  result (validateEnv E w) = Thrown message →
  main E w = mkOutcome (Thrown message) w [].
Proof.
  intros H. unfold main. rewrite (bind_thrown _ _ _ _ H).
  by destruct (validateEnv_pure E w) as [-> ->].
Qed.

Lemma missing_nonempty E :
  (0 <? length (List.filter (env_unset E) REQUIRED_ENV_VARS))%nat = true
  ↔ ∃ key, key ∈ REQUIRED_ENV_VARS ∧ env_unset E key = true.
Proof.
  rewrite Nat.ltb_lt. split.
  - intros Hlen.
    destruct (List.filter (env_unset E) REQUIRED_ENV_VARS) as [|key rest] eqn:Hf;
      [cbn in Hlen; lia|].
    assert (In key (List.filter (env_unset E) REQUIRED_ENV_VARS)) as Hin
      by (rewrite Hf; by left).
    apply filter_In in Hin as [Hin Hkey].
    exists key. by rewrite list_elem_of_In.
  - intros (key & Hin & Hkey). apply list_elem_of_In in Hin.
    assert (In key (List.filter (env_unset E) REQUIRED_ENV_VARS)) as Hin'
      by (by apply filter_In).
    destruct (List.filter (env_unset E) REQUIRED_ENV_VARS); [done|cbn; lia].
Qed.

(** All credentials present, the only list variable set to the separator:
    validation passes, and no address is collected. *)
Lemma validation_passes_without_address :
  ¬ spec_validation Sample.env_separators.
Proof.
  intros Hspec.
  destruct (Hspec (or_intror eq_refl) Sample.w_fresh) as [message Hthrown].
  vm_compute in Hthrown. discriminate.
Qed.

(** C9 (as the code has it).  Validation fails exactly when one of the
    four required credentials is unset or empty, or when none of the three
    address-list variables is set to a non-empty string.  A failed
    validation is fatal: the run makes no fetch and no store access, its
    only events are those of the top-level handler (the error
    notification), and the exit code is 1.  (A list variable that is set
    but yields no address after parsing does not fail validation.) *)
Theorem validation_fails_iff E (w : World) :
  ((∃ message, result (validateEnv E w) = Thrown message)
   ↔ ((∃ key, key ∈ REQUIRED_ENV_VARS ∧ env_unset E key = true) ∨
      (env_unset E "NJUSKALO_URLS" = true ∧ env_unset E "INDEX_HR_URLS" = true ∧
       env_unset E "OGLASNIK_HR_URLS" = true))) ∧
  (∀ message, result (validateEnv E w) = Thrown message →
     exit_code (run E w) = 1 ∧
     redis (final (run E w)) = redis w ∧
     navigation_count (trace (run E w)) = 0 ∧
     Forall (fun e => is_redis e = false) (trace (run E w)) ∧
     trace (run E w) = handler_events E (posts w) message).
Proof.
  split.
  - unfold validateEnv. cbv zeta.
    destruct (0 <? length (List.filter (env_unset E) REQUIRED_ENV_VARS))%nat eqn:Hmiss.
    + apply missing_nonempty in Hmiss. split; [by left|]. cbn. eauto.
    + assert (¬ ∃ key, key ∈ REQUIRED_ENV_VARS ∧ env_unset E key = true) as Hnone.
      { intros Hex. apply missing_nonempty in Hex. congruence. }
      destruct (env_unset E "NJUSKALO_URLS"), (env_unset E "INDEX_HR_URLS"),
        (env_unset E "OGLASNIK_HR_URLS"); cbn;
        (split; [intros [message Hm]; first [discriminate | by right]
                |intros [Hex|(? & ? & ?)]; [done|first [discriminate | eauto]]]).
  - intros message Hthrown.
    pose proof (main_validation_fails E w message Hthrown) as Hmain.
    assert (result (main E w) = Thrown message) as Hres by (by rewrite Hmain).
    destruct (run_thrown E w _ Hres) as (Hexit & Hfinal & Htrace).
    rewrite Hexit, Hfinal, Htrace, Hmain. cbn [world events app].
    split_and!; [done|done| |apply handler_events_no_redis|done].
    unfold handler_events.
    by destruct (telegram_response E (posts w)) as [[status body]|].
Qed.

Lemma validation_fails_iff_witness :
  exit_code (run (mkEnv ∅ Sample.hostname (fun _ => inr []) Sample.all_ok)
               Sample.w_fresh) = 1.
Proof.
  destruct (validation_fails_iff
              (mkEnv ∅ Sample.hostname (fun _ => inr []) Sample.all_ok)
              Sample.w_fresh) as [_ H].
  apply (H "Missing required environment variables: UPSTASH_REDIS_REST_URL, UPSTASH_REDIS_REST_TOKEN, TELEGRAM_BOT_TOKEN, TELEGRAM_CHAT_ID").
  vm_compute. reflexivity.
Defined.

(* ===================================================================== *)
(** * The scenarios of [test-dedup.ts] and of the README, evaluated *)
(* ===================================================================== *)

(** Known id dropped, repost detected, one genuinely new listing. *)
Example dedup_classification :
  genuinelyNew_of [Sample.l1001; Sample.l9999; Sample.l2001]
    (smembers Sample.store_seeded REDIS_KEY)
    (smembers Sample.store_seeded FINGERPRINT_KEY) = [Sample.l2001] ∧
  reposts_of [Sample.l1001; Sample.l9999; Sample.l2001]
    (smembers Sample.store_seeded REDIS_KEY)
    (smembers Sample.store_seeded FINGERPRINT_KEY) = [Sample.l9999].
Proof. split; vm_compute; reflexivity. Qed.

(** The same batch as a run: one notification, both new ids recorded. *)
Example dedup_run :
  sent (trace (run Sample.env_dedup Sample.w_seeded)) = [MsgNewListing Sample.l2001] ∧
  exit_code (run Sample.env_dedup Sample.w_seeded) = 0 ∧
  elements (smembers (redis (final (run Sample.env_dedup Sample.w_seeded))) REDIS_KEY)
    ≡ₚ ["1001"; "1002"; "9999"; "2001"].
Proof.
  split_and!; [vm_compute; reflexivity..|].
  apply (bool_decide_unpack _). vm_compute. exact I.
Qed.

(** Case and whitespace do not change a fingerprint. *)
Example fingerprint_normalised :
  getFingerprint (mkListing "1" "  Sveta   NEDELJA, kuca " " 300.000  EUR" "u" None None)
  = "sveta nedelja, kuca|300.000EUR".
Proof. vm_compute. reflexivity. Qed.

(** A successful fetch of the only configured address, then a retry. *)
Example flaky_fetch_trace :
  events (scrapeListings Sample.env_flaky Sample.search Sample.w_seeded)
  = [EvLaunch; EvNavigate 1 Sample.search Njuskalo;
     EvConsoleError "[Attempt 1] Scrape failed:" "Timeout 60000ms exceeded";
     EvDelay 10000; EvClose;
     EvLaunch; EvNavigate 2 Sample.search Njuskalo; EvClose].
Proof. vm_compute. reflexivity. Qed.

(** The address lists are split on the separator, trimmed, and emptied of
    blanks. *)
Example split_urls_sample :
  split_urls " https://www.njuskalo.hr/a ||| |||https://www.index.hr/b"
  = ["https://www.njuskalo.hr/a"; "https://www.index.hr/b"].
Proof. vm_compute. reflexivity. Qed.

(* ===================================================================== *)
(** * Aggregation across sources *)
(* ===================================================================== *)

Lemma map_get_app (m1 m2 : list Listing) (k : string) :
  map_get (m1 ++ m2) k
  = match map_get m1 k with Some l => Some l | None => map_get m2 k end.
Proof.
  induction m1 as [|l m1 IH]; [done|].
  cbn [app map_get]. by destruct (decide (id l = k)).
Qed.

Lemma map_get_None (m : list Listing) (k : string) :
  map_get m k = None ↔ k ∉ id <$> m.
Proof.
  induction m as [|l m IH]; cbn [map_get fmap list_fmap].
  - split; [intros _; apply not_elem_of_nil|done].
  - rewrite not_elem_of_cons. destruct (decide (id l = k)) as [Heq|Hne].
    + split; [done|]. intros [Hk _]. by destruct Hk.
    + rewrite IH. split; [by intros ?; split|by intros [_ ?]].
Qed.

Lemma map_has_false (m : list Listing) (k : string) :
  map_has m k = false ↔ k ∉ id <$> m.
Proof. unfold map_has. by rewrite bool_decide_eq_false. Qed.

Lemma add_listings_cons (m : list Listing) (l : Listing) (ls : list Listing) :
  add_listings m (l :: ls)
  = add_listings (if negb (map_has m (id l)) then m ++ [l] else m) ls.
Proof. done. Qed.

Lemma add_listings_get (ls m : list Listing) (k : string) :
  map_get (add_listings m ls) k = map_get (m ++ ls) k.
Proof.
  revert m. induction ls as [|l ls IH]; intros m; [by rewrite app_nil_r|].
  rewrite add_listings_cons, IH.
  destruct (map_has m (id l)) eqn:Hhas; cbn [negb].
  - rewrite !map_get_app. cbn [map_get].
    destruct (map_get m k) eqn:Hget; [done|].
    destruct (decide (id l = k)) as [<-|Hne]; [|done].
    apply map_get_None in Hget. unfold map_has in Hhas.
    by apply bool_decide_eq_true in Hhas.
  - by rewrite <-app_assoc.
Qed.

Lemma add_listings_extends (ls m : list Listing) :
  ∃ added, add_listings m ls = m ++ added ∧ ∀ l, l ∈ added → l ∈ ls.
Proof.
  revert m. induction ls as [|l ls IH]; intros m.
  - exists []. split; [by rewrite app_nil_r|]. by intros l Hl%elem_of_nil.
  - rewrite add_listings_cons.
    destruct (negb (map_has m (id l))).
    + destruct (IH (m ++ [l])) as (added & -> & Hsub).
      exists (l :: added). split; [by rewrite <-app_assoc|].
      intros x [->|Hx]%elem_of_cons; [by left|]. right. by apply Hsub.
    + destruct (IH m) as (added & -> & Hsub).
      exists added. split; [done|]. intros x Hx. right. by apply Hsub.
Qed.

Lemma add_listings_NoDup (ls m : list Listing) :
  NoDup (id <$> m) → NoDup (id <$> add_listings m ls).
Proof.
  revert m. induction ls as [|l ls IH]; intros m Hm; [done|].
  rewrite add_listings_cons. apply IH.
  destruct (map_has m (id l)) eqn:Hhas; cbn [negb]; [done|].
  apply map_has_false in Hhas.
  rewrite fmap_app. apply NoDup_app. split_and!; [done| |].
  - intros k Hk Hk'. apply list_elem_of_singleton in Hk'. by subst.
  - apply NoDup_singleton.
Qed.

(** What a computation returned was returned by its second part. *)
Lemma bind_result_Ok {A B} (m : M A) (f : A → M B) (w : World) (b : B) :
  result ((m ≫= f) w) = Ok b →
  ∃ a, result (m w) = Ok a ∧ result (f a (world (m w))) = Ok b.
Proof.
  unfold mbind, M_bind, bind.
  destruct (result (m w)) as [a|e]; cbn [result]; [eauto|done].
Qed.

Lemma scrape_all_NoDup E (urls : list string) (m : list Listing) (w : World)
    (allListings : list Listing) :
  result (scrape_all E urls m w) = Ok allListings →
  NoDup (id <$> m) → NoDup (id <$> allListings).
Proof.
  revert m w. induction urls as [|address urls IH]; intros m w Hres Hm.
  - cbn in Hres. by injection Hres as <-.
  - cbn [scrape_all] in Hres.
    apply bind_result_Ok in Hres as (listings & _ & Hres).
    eapply IH; [exact Hres|]. by apply add_listings_NoDup.
Qed.

(** X1.  The aggregated batch of a run holds every id at most once,
    whatever the sources returned. *)
Theorem aggregated_ids_unique E (w : World) (allListings : list Listing) :
  fetched E w allListings → NoDup (id <$> allListings).
Proof.
  intros [_ Hf]. eapply scrape_all_NoDup; [exact Hf|]. constructor.
Qed.

Lemma aggregated_ids_unique_witness :
  NoDup (id <$> [Sample.l1001; Sample.l9999; Sample.l2001]).
Proof.
  apply (aggregated_ids_unique Sample.env_dedup Sample.w_seeded).
  split; vm_compute; reflexivity.
Defined.

(** X2.  Merging one source's listings into the map keeps, for every id,
    the record seen first: the records already in the map stay where they
    are, only listings of the source are appended, and looking an id up
    afterwards gives the first record with that id among the map followed
    by the source. *)
Theorem first_seen_record_kept (m listings : list Listing) :
  (∃ added, add_listings m listings = m ++ added ∧ ∀ l, l ∈ added → l ∈ listings) ∧
  (∀ k, map_get (add_listings m listings) k = map_get (m ++ listings) k) ∧
  (∀ l, l ∈ listings → id l ∈ id <$> add_listings m listings).
Proof.
  split_and!.
  - apply add_listings_extends.
  - intros k. apply add_listings_get.
  - intros l Hl.
    destruct (decide (id l ∈ id <$> add_listings m listings)) as [|Hnot]; [done|].
    apply map_get_None in Hnot. rewrite add_listings_get in Hnot.
    apply map_get_None in Hnot. destruct Hnot.
    rewrite fmap_app. apply elem_of_app. right. by apply list_elem_of_fmap_2.
Qed.

(* ===================================================================== *)
(** * The browser sessions and the cost of a fetch *)
(* ===================================================================== *)

(** The four traces a fetch of one address can leave. *)
Lemma scrapeListings_shapes E (address : string) (w : World) :
  events (scrapeListings E address w) = [] ∨
  ∃ site e1 e2,
    events (scrapeListings E address w)
      = [EvLaunch; EvNavigate 1 address site; EvClose] ∨
    events (scrapeListings E address w)
      = [EvLaunch; EvNavigate 1 address site;
         EvConsoleError "[Attempt 1] Scrape failed:" e1; EvDelay 10000; EvClose;
         EvLaunch; EvNavigate 2 address site; EvClose] ∨
    events (scrapeListings E address w)
      = [EvLaunch; EvNavigate 1 address site;
         EvConsoleError "[Attempt 1] Scrape failed:" e1; EvDelay 10000; EvClose;
         EvLaunch; EvNavigate 2 address site;
         EvConsoleError "[Attempt 2] Scrape failed:" e2; EvClose].
Proof.
  unfold scrapeListings.
  destruct (url_hostname E address) as [domain|]; [|by left].
  destruct (extractFn_of domain) as [site|]; [|by left].
  right. rewrite scrape_attempts_cons.
  destruct (page_result E (navigations w)) as [e1|listings];
    [|exists site, EmptyString, EmptyString; by left].
  rewrite scrape_attempts_cons. cbn [navigations].
  destruct (page_result E (S (navigations w))) as [e2|listings].
  - exists site, e1, e2. right. by right.
  - exists site, e1, EmptyString. right. by left.
Qed.

Lemma scrape_all_cons_events E (address : string) (urls : list string)
    (m : list Listing) (w : World) :
  events (scrape_all E (address :: urls) m w) = events (scrapeListings E address w) ∨
  ∃ m' w', events (scrape_all E (address :: urls) m w)
           = events (scrapeListings E address w) ++ events (scrape_all E urls m' w').
Proof.
  cbn [scrape_all]. unfold mbind, M_bind, bind.
  destruct (result (scrapeListings E address w)) as [listings|e]; cbn [events].
  - right. eauto.
  - by left.
Qed.

Lemma sessions_app (t1 t2 : list Event) (n k : nat) :
  sessions n t1 = Some k → sessions n (t1 ++ t2) = sessions k t2.
Proof.
  revert n. induction t1 as [|e t1 IH]; intros n H.
  - cbn in H. by injection H as ->.
  - destruct e; cbn [app sessions] in *;
      try (destruct (n =? 0)%nat); try (destruct (n =? 1)%nat);
      try done; by apply IH.
Qed.

Lemma delay_count_app (t1 t2 : list Event) :
  delay_count (t1 ++ t2) = delay_count t1 + delay_count t2.
Proof. unfold delay_count. by rewrite List.filter_app, length_app. Qed.

Lemma navigation_count_app (t1 t2 : list Event) :
  navigation_count (t1 ++ t2) = navigation_count t1 + navigation_count t2.
Proof. unfold navigation_count. by rewrite List.filter_app, length_app. Qed.

Lemma scrapeListings_sessions E (address : string) (w : World) :
  sessions 0 (events (scrapeListings E address w)) = Some 0 ∧
  navigation_count (events (scrapeListings E address w)) ≤ 2 ∧
  delay_count (events (scrapeListings E address w)) ≤ 1.
Proof.
  destruct (scrapeListings_shapes E address w)
    as [-> | (site & e1 & e2 & [-> | [-> | ->] ])]; cbn; auto with lia.
Qed.

(** X3.  Every browser a fetch phase launches is closed again, on every
    path (success, retry, final failure, a later source failing): at no
    point are two browsers open, every navigation happens in an open
    browser, and none is left open at the end. *)
Theorem browser_sessions_closed E (urls : list string) (m : list Listing) (w : World) :
  sessions 0 (events (scrape_all E urls m w)) = Some 0.
Proof.
  revert m w. induction urls as [|address urls IH]; intros m w; [done|].
  destruct (scrapeListings_sessions E address w) as (Hs & _ & _).
  destruct (scrape_all_cons_events E address urls m w) as [->|(m' & w' & ->)];
    [done|].
  rewrite (sessions_app _ _ _ _ Hs). apply IH.
Qed.

(** X4.  The fetch phase is bounded by the number of configured
    addresses: at most two navigations and at most one 10-second retry
    delay per address. *)
Theorem fetch_phase_bounded E (urls : list string) (m : list Listing) (w : World) :
  navigation_count (events (scrape_all E urls m w)) ≤ 2 * length urls ∧
  delay_count (events (scrape_all E urls m w)) ≤ length urls.
Proof.
  revert m w. induction urls as [|address urls IH]; intros m w; [cbn; lia|].
  destruct (scrapeListings_sessions E address w) as (_ & Hn & Hd).
  destruct (scrape_all_cons_events E address urls m w) as [->|(m' & w' & ->)].
  - cbn [length]. lia.
  - rewrite navigation_count_app, delay_count_app.
    destruct (IH m' w') as [IHn IHd]. cbn [length]. lia.
Qed.

(* ===================================================================== *)
(** * A failing source *)
(* ===================================================================== *)

Lemma main_fetch_fails E (w : World) (e : string) :
  result (validateEnv E w) = Ok tt →
  result (scrape_all E (collectUrls E) [] w) = Thrown e →
  main E w = mkOutcome (Thrown e) (world (scrape_all E (collectUrls E) [] w))
               (events (scrape_all E (collectUrls E) [] w)).
Proof.
  intros Hv Hf. unfold main. cbv zeta.
  rewrite (bind_ok _ _ _ tt Hv).
  destruct (validateEnv_pure E w) as [Hw Ht].
  unfold after. rewrite Hw, Ht, prepend_nil.
  by rewrite (bind_thrown _ _ _ e Hf).
Qed.

(** A source that fails stops the loop over the addresses: the later
    ones are not visited. *)
Lemma scrape_all_stops E (address : string) (urls : list string)
    (m : list Listing) (w : World) (e : string) :
  result (scrapeListings E address w) = Thrown e →
  result (scrape_all E (address :: urls) m w) = Thrown e ∧
  events (scrape_all E (address :: urls) m w) = events (scrapeListings E address w).
Proof.
  intros H. cbn [scrape_all]. by rewrite (bind_thrown _ _ _ e H).
Qed.

(** X5.  One failing source is fatal to the whole run: when the fetch
    phase throws (an address that failed twice, or an unparsable or
    unsupported one), the run ends with exit code 1, no Redis command is
    sent and the store is left as it was, and the only message is the
    error notification carrying the escaped failure. *)
Theorem source_failure_is_fatal E (w : World) (e : string) :
  result (validateEnv E w) = Ok tt →
  result (scrape_all E (collectUrls E) [] w) = Thrown e →
  exit_code (run E w) = 1 ∧
  redis (final (run E w)) = redis w ∧
  Forall (fun ev => is_redis ev = false) (trace (run E w)) ∧
  sent (trace (run E w)) = [MsgError (escapeHtml e)].
Proof.
  intros Hv Hf. pose proof (main_fetch_fails E w e Hv Hf) as Hmain.
  destruct (fetch_frame E w) as (Hr & _ & He).
  assert (result (main E w) = Thrown e) as Hres by (by rewrite Hmain).
  destruct (run_thrown E w e Hres) as (-> & -> & ->).
  rewrite Hmain. cbn [world events].
  split_and!; [done|done| |].
  - apply Forall_app. split;
      [by apply fetch_events_no_redis|apply handler_events_no_redis].
  - by rewrite sent_app, fetch_events_sent, sent_handler_events.
Qed.

Lemma source_failure_is_fatal_witness :
  exit_code (run Cases.env_unreachable Sample.w_seeded) = 1 ∧
  redis (final (run Cases.env_unreachable Sample.w_seeded)) = redis Sample.w_seeded.
Proof.
  destruct (source_failure_is_fatal Cases.env_unreachable Sample.w_seeded
              "Failed to scrape https://www.njuskalo.hr/prodaja-kuca after 2 attempts: Timeout 60000ms exceeded")
    as (Hexit & Hstore & _).
  - vm_compute. reflexivity.
  - vm_compute. reflexivity.
  - split; [exact Hexit|exact Hstore].
Defined.

(* ===================================================================== *)
(** * The store after a run, and the messages of a run *)
(* ===================================================================== *)

(** The first-run path, evaluated. *)
Lemma first_run_outcome E (w : World) (allListings : list Listing) :
  fetched E w allListings → allListings ≠ [] → first_run w →
  redis (final (run E w)) = seeded_store w allListings ∧
  ∀ m, m ∈ sent (trace (run E w)) → is_dispatch m = false.
Proof.
  intros Hf Hne Hfirst. pose proof (main_first_run E w _ Hf Hne Hfirst) as Hmain.
  destruct (fetch_frame E w) as (Hr & Hp & He).
  set (o1 := scrape_all E (collectUrls E) [] w) in *. cbv zeta in Hmain.
  fold (seeded_store w allListings) in Hmain.
  unfold prepend, notifyInitialized in Hmain.
  cbn [sendTelegramMessage result world events set_redis redis posts] in Hmain.
  destruct (result (main E w)) as [[]|e] eqn:Hres.
  - rewrite (run_ok E w Hres), Hmain. cbn [final trace world events redis].
    split; [done|]. intros m Hm.
    rewrite !sent_app, fetch_events_sent in Hm by done.
    apply list_elem_of_singleton in Hm. by subst.
  - destruct (run_thrown E w e Hres) as (_ & Hfinal & Htrace).
    rewrite Hfinal, Htrace, Hmain. cbn [world events redis].
    split; [done|]. intros m Hm.
    rewrite !sent_app, fetch_events_sent, sent_handler_events in Hm by done.
    repeat (apply elem_of_cons in Hm as [->|Hm]; [done|]).
    by apply elem_of_nil in Hm.
Qed.

(** A later run with nothing new by id, evaluated. *)
Lemma no_new_outcome E (w : World) (allListings : list Listing) :
  fetched E w allListings → allListings ≠ [] → ¬ first_run w →
  newByIdListings allListings (smembers (redis w) REDIS_KEY) = [] →
  exit_code (run E w) = 0 ∧
  redis (final (run E w))
    = add_and_expire (redis w) FINGERPRINT_KEY (getFingerprint <$> allListings) ∧
  sent (trace (run E w)) = [].
Proof.
  intros Hf Hne Hfirst Hnew.
  pose proof (main_no_new E w _ Hf Hne Hfirst Hnew) as Hmain. cbv zeta in Hmain.
  destruct (fetch_frame E w) as (_ & _ & He).
  assert (result (main E w) = Ok tt) as Hres by (by rewrite Hmain).
  rewrite (run_ok E w Hres), Hmain. cbn [exit_code final trace world events].
  split_and!; [done|done|].
  by rewrite sent_app, fetch_events_sent.
Qed.

(** A later run with listings new by id, evaluated: the dispatch [d] of
    the genuinely new ones starts from the store with the new ids added;
    either it returns and the fingerprints are synced, or it throws and
    the top-level handler takes over. *)
Lemma new_ids_outcome E (w : World) (allListings : list Listing) :
  fetched E w allListings → ¬ first_run w →
  let seenIds := smembers (redis w) REDIS_KEY in
  let seenFps := smembers (redis w) FINGERPRINT_KEY in
  let newById := newByIdListings allListings seenIds in
  let genuinelyNew := genuinelyNew_of allListings seenIds seenFps in
  newById ≠ [] →
  ∃ (before tail : list Event) (d : Outcome unit),
    d = (if (0 <? length genuinelyNew)%nat
         then notifyNewListings E genuinelyNew else ret tt)
          (set_redis (world (scrape_all E (collectUrls E) [] w)) (ids_added w newById)) ∧
    trace (run E w) = before ++ events d ++ tail ∧
    sent before = [] ∧
    ((result d = Ok tt ∧ exit_code (run E w) = 0 ∧ sent tail = [] ∧
      redis (final (run E w))
        = add_and_expire (ids_added w newById) FINGERPRINT_KEY
            (getFingerprint <$> allListings)) ∨
     (∃ e, result d = Thrown e ∧ exit_code (run E w) = 1 ∧
           sent tail = [MsgError (escapeHtml e)] ∧
           redis (final (run E w)) = ids_added w newById)).
Proof.
  intros Hf Hfirst seenIds seenFps newById genuinelyNew Hnew.
  pose proof (main_new E w _ Hf Hfirst Hnew) as Hmain. cbv zeta in Hmain.
  fold seenIds seenFps newById genuinelyNew in Hmain.
  fold (ids_added w newById) in Hmain.
  destruct (fetch_frame E w) as (_ & _ & He).
  set (before := events (scrape_all E (collectUrls E) [] w) ++ _) in Hmain.
  set (d := (if (0 <? length genuinelyNew)%nat
             then notifyNewListings E genuinelyNew else ret tt) (set_redis _ _))
    in Hmain.
  assert (redis (world d) = ids_added w newById) as Hd.
  { unfold d. destruct (0 <? length genuinelyNew)%nat; [|done].
    destruct (notifyNewListings_frame E genuinelyNew) as [Hr _]. by rewrite Hr. }
  assert (sent before = []) as Hsilent.
  { unfold before. by rewrite sent_app, fetch_events_sent. }
  destruct (result d) as [[]|e] eqn:Hres.
  - assert (result (main E w) = Ok tt) as Hok by (by rewrite Hmain).
    rewrite (run_ok E w Hok), Hmain. cbn [exit_code final trace world events].
    eexists before, _, d. split_and!; [done|done|done|].
    left. cbn [set_redis redis]. by rewrite Hd.
  - assert (result (main E w) = Thrown e) as Hthrown by (by rewrite Hmain).
    destruct (run_thrown E w e Hthrown) as (Hexit & Hfinal & Htrace).
    rewrite Hexit, Hfinal, Htrace, Hmain. cbn [world events].
    exists before, (handler_events E (posts (world d)) e), d.
    split_and!; [done|by rewrite <-app_assoc|done|].
    right. exists e. by rewrite sent_handler_events.
Qed.

Lemma newById_ids (allListings : list Listing) (seenIds : gset string) :
  seenIds ∪ list_to_set (id <$> newByIdListings allListings seenIds)
  = seenIds ∪ list_to_set (id <$> allListings).
Proof.
  apply set_eq. intros k. rewrite !elem_of_union, !elem_of_list_to_set.
  rewrite !list_elem_of_fmap. unfold newByIdListings. split.
  - intros [?|(l & -> & [_ Hl]%list_elem_of_filter)]; [by left|right; eauto].
  - intros [?|(l & -> & Hl)]; [by left|].
    destruct (decide (id l ∈ seenIds)) as [|Hnot]; [by left|].
    right. exists l. split; [done|]. by apply list_elem_of_filter.
Qed.

Lemma newById_nil_ids (allListings : list Listing) (seenIds : gset string) :
  newByIdListings allListings seenIds = [] →
  seenIds ∪ list_to_set (id <$> allListings) = seenIds.
Proof.
  intros Hnil. rewrite <-newById_ids, Hnil. cbn. by rewrite (right_id_L ∅ (∪)).
Qed.

Lemma first_run_after_write (r : Redis) (vals : list string) (w' : World) :
  redis w' = add_and_expire r REDIS_KEY vals → ¬ first_run w'.
Proof. unfold first_run. by intros ->. Qed.

(** The identity set a run leaves. *)
Lemma run_identity_set E (w : World) (allListings : list Listing) :
  fetched E w allListings →
  smembers (redis (final (run E w))) REDIS_KEY
    = smembers (redis w) REDIS_KEY ∪ list_to_set (id <$> allListings).
Proof.
  intros Hf. destruct (decide (allListings = [])) as [->|Hne].
  { destruct (zero_listings_frame E w Hf) as (_ & -> & _).
    cbn. by rewrite (right_id_L ∅ (∪)). }
  destruct (decide (first_run w)) as [Hfirst|Hlater].
  { destruct (first_run_outcome E w _ Hf Hne Hfirst) as [-> _].
    unfold seeded_store. rewrite smembers_add_and_expire_ne by done.
    apply smembers_add_and_expire. }
  destruct (decide (newByIdListings allListings (smembers (redis w) REDIS_KEY) = []))
    as [Hnil|Hnew].
  { destruct (no_new_outcome E w _ Hf Hne Hlater Hnil) as (_ & -> & _).
    rewrite smembers_add_and_expire_ne by done. by rewrite newById_nil_ids. }
  destruct (new_ids_outcome E w _ Hf Hlater Hnew)
    as (before & tail & d & _ & _ & _ & [(_ & _ & _ & ->)|(e & _ & _ & _ & ->)]);
    unfold ids_added.
  - rewrite smembers_add_and_expire_ne by done.
    rewrite smembers_add_and_expire. apply newById_ids.
  - rewrite smembers_add_and_expire. apply newById_ids.
Qed.

(** X6.  Whatever the run does afterwards (dispatch failing or not, exit
    code 0 or 1), a run that fetched its batch leaves the identity set as
    the old set plus the ids of the whole batch; and after a non-empty
    batch the identity key exists, so the next run is not a first run. *)
Theorem ids_recorded_by_every_run E (w : World) (allListings : list Listing) :
  fetched E w allListings →
  smembers (redis (final (run E w))) REDIS_KEY
    = smembers (redis w) REDIS_KEY ∪ list_to_set (id <$> allListings) ∧
  (allListings ≠ [] → ¬ first_run (final (run E w))).
Proof.
  intros Hf. split; [by apply run_identity_set|].
  intros Hne. unfold first_run.
  destruct (decide (first_run w)) as [Hfirst|Hlater].
  { by destruct (first_run_outcome E w _ Hf Hne Hfirst) as [-> _]. }
  destruct (decide (newByIdListings allListings (smembers (redis w) REDIS_KEY) = []))
    as [Hnil|Hnew].
  { by destruct (no_new_outcome E w _ Hf Hne Hlater Hnil) as (_ & -> & _). }
  by destruct (new_ids_outcome E w _ Hf Hlater Hnew)
    as (before & tail & d & _ & _ & _ & [(_ & _ & _ & ->)|(e & _ & _ & _ & ->)]).
Qed.

Lemma ids_recorded_by_every_run_witness :
  smembers (redis (final (run Sample.env_down Sample.w_seeded))) REDIS_KEY
    = smembers (redis Sample.w_seeded) REDIS_KEY ∪ list_to_set (id <$> Sample.five).
Proof.
  apply (ids_recorded_by_every_run Sample.env_down Sample.w_seeded Sample.five).
  split; vm_compute; reflexivity.
Defined.

(** The listings a later run dispatches are genuinely new ones. *)
Lemma dispatched_genuinely_new E (w : World) (allListings : list Listing) (l : Listing) :
  fetched E w allListings →
  MsgNewListing l ∈ sent (trace (run E w)) →
  ¬ first_run w ∧
  l ∈ genuinelyNew_of allListings (smembers (redis w) REDIS_KEY)
        (smembers (redis w) FINGERPRINT_KEY).
Proof.
  intros Hf Hl. destruct (decide (allListings = [])) as [->|Hne].
  { destruct (zero_listings_frame E w Hf) as (_ & _ & Hsent). by apply Hsent in Hl. }
  destruct (decide (first_run w)) as [Hfirst|Hlater].
  { destruct (first_run_outcome E w _ Hf Hne Hfirst) as [_ Hsent].
    by apply Hsent in Hl. }
  split; [done|].
  destruct (decide (newByIdListings allListings (smembers (redis w) REDIS_KEY) = []))
    as [Hnil|Hnew].
  { destruct (no_new_outcome E w _ Hf Hne Hlater Hnil) as (_ & _ & Hsent).
    rewrite Hsent in Hl. by apply elem_of_nil in Hl. }
  destruct (new_ids_outcome E w _ Hf Hlater Hnew)
    as (before & tail & d & Hd & Htrace & Hsilent & Hcases).
  rewrite Htrace, !sent_app, Hsilent in Hl. cbn [app] in Hl.
  apply elem_of_app in Hl as [Hl|Hl].
  - rewrite Hd in Hl. destruct (0 <? length _)%nat; [|by apply elem_of_nil in Hl].
    apply notifyNewListings_sent in Hl as [Hl|(l' & Hl' & Hl)]; [done|].
    by injection Hl as ->.
  - destruct Hcases as [(_ & _ & Htail & _)|(e & _ & _ & Htail & _)];
      rewrite Htail in Hl; [by apply elem_of_nil in Hl|].
    by apply list_elem_of_singleton in Hl.
Qed.

(** What the dispatch hands to the transport depends on the world
    through the number of POSTs made before only. *)
Lemma notifyNewListings_posts E (listings : list Listing) (w1 w2 : World) :
  posts w1 = posts w2 →
  events (notifyNewListings E listings w1) = events (notifyNewListings E listings w2).
Proof.
  intros Hp. destruct (decide (length listings < 5)) as [Hlt|Hge].
  - destruct (notifyNewListings_small E listings w1 Hlt) as [_ ->].
    destruct (notifyNewListings_small E listings w2 Hlt) as [_ ->].
    by rewrite Hp.
  - assert (5 ≤ length listings) as Hle by lia.
    destruct (telegram_response E (posts w1)) as [[status body]|] eqn:Htg.
    + destruct (notifyNewListings_summary_fails E listings w1 _ _ Hle Htg) as [_ ->].
      rewrite Hp in Htg.
      by destruct (notifyNewListings_summary_fails E listings w2 _ _ Hle Htg) as [_ ->].
    + destruct (notifyNewListings_summary_ok E listings w1 Hle Htg) as [_ ->].
      rewrite Hp in Htg.
      destruct (notifyNewListings_summary_ok E listings w2 Hle Htg) as [_ ->].
      by rewrite Hp.
Qed.

(** C1.  On a non-first run the aggregated listings are partitioned by
    the persisted sets, and the run goes on with the outcome: the messages
    [main] hands to the transport are those of the dispatch of the
    genuinely new listings.  A listing is genuinely new exactly when it is
    in the batch, its id is not in the identity set and its fingerprint is
    not in the fingerprint set; it is a repost exactly when it is in the
    batch, its id is not in the identity set and its fingerprint is in the
    fingerprint set.  A listing whose id is in the identity set is in
    neither output, and no listing message is sent for a listing that is
    not genuinely new. *)
Theorem classification_partition E (w : World) (allListings : list Listing) :
  fetched E w allListings → allListings ≠ [] → ¬ first_run w →
  let seenIds := smembers (redis w) REDIS_KEY in
  let seenFps := smembers (redis w) FINGERPRINT_KEY in
  let genuinelyNew := genuinelyNew_of allListings seenIds seenFps in
  let reposts := reposts_of allListings seenIds seenFps in
  sent (events (main E w)) = sent (events (notifyNewListings E genuinelyNew w)) ∧
  ∀ l,
    (l ∈ genuinelyNew
       ↔ (l ∈ allListings ∧ (id l ∉ seenIds) ∧ (getFingerprint l ∉ seenFps))) ∧
    (l ∈ reposts
       ↔ (l ∈ allListings ∧ (id l ∉ seenIds) ∧ getFingerprint l ∈ seenFps)) ∧
    (id l ∈ seenIds → (l ∉ genuinelyNew) ∧ (l ∉ reposts)) ∧
    (l ∉ genuinelyNew → MsgNewListing l ∉ sent (trace (run E w))).
Proof.
  intros Hf Hne Hlater seenIds seenFps genuinelyNew reposts. split.
  - destruct (fetch_frame E w) as (_ & Hp & He).
    destruct (decide (newByIdListings allListings seenIds = [])) as [Hnil|Hnew].
    + pose proof (main_no_new E w _ Hf Hne Hlater Hnil) as Hmain.
      cbv zeta in Hmain. rewrite Hmain. cbn [events].
      rewrite sent_app, fetch_events_sent by done.
      unfold genuinelyNew, genuinelyNew_of. fold seenIds. by rewrite Hnil.
    + pose proof (main_new E w _ Hf Hlater Hnew) as Hmain. cbv zeta in Hmain.
      fold seenIds seenFps genuinelyNew in Hmain.
      set (w' := set_redis (world (scrape_all E (collectUrls E) [] w)) _) in Hmain.
      assert (sent (events ((if (0 <? length genuinelyNew)%nat
                             then notifyNewListings E genuinelyNew else ret tt) w'))
              = sent (events (notifyNewListings E genuinelyNew w))) as Hd.
      { rewrite (notifyNewListings_posts E genuinelyNew w w') by (symmetry; apply Hp).
        by destruct genuinelyNew. }
      rewrite Hmain.
      destruct (result ((if (0 <? length genuinelyNew)%nat
                         then notifyNewListings E genuinelyNew else ret tt) w'));
        cbn [events]; rewrite !sent_app, Hd, (fetch_events_sent _ He);
        cbn [app]; by rewrite ?app_nil_r.
  - intros l. split_and!.
    + unfold genuinelyNew, genuinelyNew_of, newByIdListings.
      rewrite split_reposts_filter. cbn [fst].
      rewrite !list_elem_of_filter. tauto.
    + unfold reposts, reposts_of, newByIdListings.
      rewrite split_reposts_filter. cbn [snd].
      rewrite !list_elem_of_filter. tauto.
    + unfold genuinelyNew, reposts, genuinelyNew_of, reposts_of, newByIdListings.
      rewrite split_reposts_filter. cbn [fst snd].
      rewrite !list_elem_of_filter. tauto.
    + intros Hnot Hl.
      by destruct (dispatched_genuinely_new E w _ l Hf Hl) as [_ Hgn].
Qed.

Lemma classification_partition_witness :
  MsgNewListing Sample.l9999
    ∉ sent (trace (run Sample.env_dedup Sample.w_seeded)).
Proof.
  destruct (classification_partition Sample.env_dedup Sample.w_seeded
              [Sample.l1001; Sample.l9999; Sample.l2001]) as [_ H].
  - split; vm_compute; reflexivity.
  - discriminate.
  - discriminate.
  - destruct (H Sample.l9999) as (_ & _ & _ & Hnot). apply Hnot.
    apply (bool_decide_unpack _). vm_compute. exact I.
Defined.

(** X7.  A listing message is only ever sent by a later (non-first) run,
    for a listing of the aggregated batch whose id was not in the identity
    set and whose fingerprint was not in the fingerprint set when the run
    started. *)
Theorem only_genuinely_new_notified E (w : World) (allListings : list Listing)
    (l : Listing) :
  fetched E w allListings →
  MsgNewListing l ∈ sent (trace (run E w)) →
  ¬ first_run w ∧ l ∈ allListings ∧
  (id l ∉ smembers (redis w) REDIS_KEY) ∧
  (getFingerprint l ∉ smembers (redis w) FINGERPRINT_KEY).
Proof.
  intros Hf Hl. destruct (dispatched_genuinely_new E w _ l Hf Hl) as [Hlater Hgn].
  split; [done|].
  unfold genuinelyNew_of, newByIdListings in Hgn.
  rewrite split_reposts_filter in Hgn. cbn [fst] in Hgn.
  apply list_elem_of_filter in Hgn as [Hfp Hgn].
  apply list_elem_of_filter in Hgn as [Hid Hall]. done.
Qed.

Lemma only_genuinely_new_notified_witness :
  "2001" ∉ smembers (redis Sample.w_seeded) REDIS_KEY.
Proof.
  apply (only_genuinely_new_notified Sample.env_dedup Sample.w_seeded
           [Sample.l1001; Sample.l9999; Sample.l2001] Sample.l2001).
  - split; vm_compute; reflexivity.
  - apply (bool_decide_unpack _). vm_compute. exact I.
Defined.

(* ===================================================================== *)
(** * Once per listing, within a run and across runs *)
(* ===================================================================== *)

Lemma filter_ids_NoDup (P : Listing → Prop) `{!∀ l, Decision (P l)}
    (ls : list Listing) :
  NoDup (id <$> ls) → NoDup (id <$> filter P ls).
Proof.
  induction ls as [|l ls IH]; [done|].
  cbn [fmap list_fmap]. intros [Hl Hls]%NoDup_cons.
  destruct (decide (P l)).
  - rewrite filter_cons_True by done. cbn [fmap list_fmap].
    apply NoDup_cons. split; [|by apply IH].
    intros (l' & Hid & [_ Hl']%list_elem_of_filter)%list_elem_of_fmap.
    apply Hl. rewrite Hid. by apply list_elem_of_fmap_2.
  - rewrite filter_cons_False by done. by apply IH.
Qed.

Lemma genuinelyNew_ids_NoDup (allListings : list Listing) (seenIds seenFps : gset string) :
  NoDup (id <$> allListings) →
  NoDup (id <$> genuinelyNew_of allListings seenIds seenFps).
Proof.
  intros H. unfold genuinelyNew_of, newByIdListings.
  rewrite split_reposts_filter. cbn [fst].
  by do 2 apply filter_ids_NoDup.
Qed.

(** The messages of a dispatch that is not stopped by its summary. *)
Lemma notifyNewListings_all_sent E (listings : list Listing) (w : World) :
  length listings < 5 ∨ telegram_response E (posts w) = None →
  result (notifyNewListings E listings w) = Ok tt ∧
  sent (events (notifyNewListings E listings w))
    = (if (5 <=? length listings)%nat then [MsgSummary (length listings)] else [])
        ++ (MsgNewListing <$> listings).
Proof.
  intros Hcase. destruct (5 <=? length listings)%nat eqn:Hlen.
  - apply Nat.leb_le in Hlen. destruct Hcase as [?|Htg]; [lia|].
    destruct (notifyNewListings_summary_ok E listings w Hlen Htg) as [-> ->].
    split; [done|]. rewrite !sent_cons. cbn [app]. f_equal.
    apply sent_each. intros. apply sent_listing_events.
  - apply Nat.leb_gt in Hlen.
    destruct (notifyNewListings_small E listings w Hlen) as [-> ->].
    split; [done|]. apply sent_each. intros. apply sent_listing_events.
Qed.

(** X8.  In a later run whose dispatch is not stopped by a rejected
    summary (fewer than five genuinely new listings, or the summary is
    accepted), the run completes with exit code 0 and hands to the
    transport exactly one message per genuinely new listing, in batch
    order, after the summary when there are five or more; no two of these
    listings share an id.  Rejected listing messages do not change this. *)
Theorem each_new_listing_sent_once E (w : World) (allListings : list Listing) :
  fetched E w allListings → allListings ≠ [] → ¬ first_run w →
  let genuinelyNew :=
    genuinelyNew_of allListings (smembers (redis w) REDIS_KEY)
      (smembers (redis w) FINGERPRINT_KEY) in
  length genuinelyNew < 5 ∨ telegram_response E (posts w) = None →
  exit_code (run E w) = 0 ∧
  sent (trace (run E w))
    = (if (5 <=? length genuinelyNew)%nat then [MsgSummary (length genuinelyNew)] else [])
        ++ (MsgNewListing <$> genuinelyNew) ∧
  NoDup (id <$> genuinelyNew).
Proof.
  intros Hf Hne Hlater genuinelyNew Hcase.
  assert (NoDup (id <$> genuinelyNew)) as Hnodup.
  { apply genuinelyNew_ids_NoDup. destruct Hf as [_ Hf].
    eapply scrape_all_NoDup; [exact Hf|constructor]. }
  split_and!; [| |done].
  all: destruct (decide (newByIdListings allListings (smembers (redis w) REDIS_KEY) = []))
    as [Hnil|Hnew].
  1,3: destruct (no_new_outcome E w _ Hf Hne Hlater Hnil) as (Hexit & _ & Hsent).
  1: done.
  1: { rewrite Hsent. unfold genuinelyNew, genuinelyNew_of. by rewrite Hnil. }
  all: destruct (new_ids_outcome E w _ Hf Hlater Hnew)
    as (before & tail & d & Hd & Htrace & Hsilent & Hcases).
  all: fold genuinelyNew in Hd.
  all: destruct (fetch_frame E w) as (_ & Hp & _).
  all: assert (result d = Ok tt ∧
               sent (events d)
               = (if (5 <=? length genuinelyNew)%nat
                  then [MsgSummary (length genuinelyNew)] else [])
                   ++ (MsgNewListing <$> genuinelyNew)) as [Hres Hsent].
  1,3: rewrite Hd; destruct genuinelyNew as [|g gs] eqn:Hgn; [done|];
       rewrite <-Hgn in *;
       replace (0 <? length genuinelyNew)%nat with true by (by rewrite Hgn);
       apply notifyNewListings_all_sent; cbn [set_redis posts]; by rewrite Hp.
  all: destruct Hcases as [(_ & Hexit & Htail & _)|(e & Hthrown & _)];
    [|congruence].
  - done.
  - by rewrite Htrace, !sent_app, Hsilent, Htail, Hsent, app_nil_r.
Qed.

Lemma each_new_listing_sent_once_witness :
  sent (trace (run Sample.env_dedup Sample.w_seeded)) = [MsgNewListing Sample.l2001].
Proof.
  destruct (each_new_listing_sent_once Sample.env_dedup Sample.w_seeded
              [Sample.l1001; Sample.l9999; Sample.l2001]) as (_ & Hsent & _).
  - split; vm_compute; reflexivity.
  - discriminate.
  - discriminate.
  - right. reflexivity.
  - exact Hsent.
Defined.

(** X9.  No second notification for an id: once a run has fetched a
    batch, no later run on the store it left sends a listing message for
    a listing with the id of a listing of that batch, whether the first
    run completed or failed after the fetch. *)
Theorem id_never_notified_again E1 E2 (w1 w2 : World) (batch1 batch2 : list Listing)
    (l1 l2 : Listing) :
  fetched E1 w1 batch1 → redis w2 = redis (final (run E1 w1)) →
  fetched E2 w2 batch2 →
  l1 ∈ batch1 →
  MsgNewListing l2 ∈ sent (trace (run E2 w2)) →
  id l2 ≠ id l1.
Proof.
  intros Hf1 Hstore Hf2 Hl1 Hl2 Heq.
  destruct (dispatched_genuinely_new E2 w2 _ l2 Hf2 Hl2) as [_ Hgn].
  apply genuinelyNew_new_by_id, list_elem_of_filter in Hgn as [Hnew _].
  apply Hnew. rewrite Hstore.
  rewrite (run_identity_set E1 w1 batch1 Hf1).
  apply elem_of_union_r, elem_of_list_to_set.
  rewrite Heq. by apply list_elem_of_fmap_2.
Qed.

Lemma id_never_notified_again_witness :
  id Sample.l2002 ≠ id Sample.l2001.
Proof.
  apply (id_never_notified_again Sample.env_dedup Cases.env_next
           Sample.w_seeded Cases.w_after_dedup
           [Sample.l1001; Sample.l9999; Sample.l2001]
           [Sample.l9999; Cases.l3001; Sample.l2002]).
  - split; vm_compute; reflexivity.
  - reflexivity.
  - split; vm_compute; reflexivity.
  - apply (bool_decide_unpack _). vm_compute. exact I.
  - apply (bool_decide_unpack _). vm_compute. exact I.
Defined.

Lemma run_identity_key_exists E (w : World) (allListings : list Listing) :
  fetched E w allListings → allListings ≠ [] →
  seen_ids (redis (final (run E w))) ≠ None.
Proof.
  intros Hf Hne.
  destruct (decide (first_run w)) as [Hfirst|Hlater].
  { by destruct (first_run_outcome E w _ Hf Hne Hfirst) as [-> _]. }
  destruct (decide (newByIdListings allListings (smembers (redis w) REDIS_KEY) = []))
    as [Hnil|Hnew].
  { by destruct (no_new_outcome E w _ Hf Hne Hlater Hnil) as (_ & -> & _). }
  by destruct (new_ids_outcome E w _ Hf Hlater Hnew)
    as (before & tail & d & _ & _ & _ & [(_ & _ & _ & ->)|(e & _ & _ & _ & ->)]).
Qed.

(** X10.  Running again on the same batch is silent: when a run has
    fetched a non-empty batch, a following run that fetches the same batch
    on the store the first one left sends no message at all, ends with
    exit code 0 and leaves the identity key exactly as it found it. *)
Theorem same_batch_again_is_silent E1 E2 (w1 w2 : World) (batch : list Listing) :
  fetched E1 w1 batch → batch ≠ [] →
  redis w2 = redis (final (run E1 w1)) →
  fetched E2 w2 batch →
  sent (trace (run E2 w2)) = [] ∧
  exit_code (run E2 w2) = 0 ∧
  seen_ids (redis (final (run E2 w2))) = seen_ids (redis w2).
Proof.
  intros Hf1 Hne Hstore Hf2.
  assert (¬ first_run w2) as Hlater.
  { unfold first_run. rewrite Hstore. by apply (run_identity_key_exists E1 w1 batch). }
  assert (newByIdListings batch (smembers (redis w2) REDIS_KEY) = []) as Hnil.
  { apply newById_nil_of_all_seen. intros l Hl.
    rewrite Hstore, (run_identity_set E1 w1 batch Hf1).
    apply elem_of_union_r, elem_of_list_to_set. by apply list_elem_of_fmap_2. }
  destruct (no_new_outcome E2 w2 _ Hf2 Hne Hlater Hnil) as (Hexit & Hfinal & Hsent).
  by rewrite Hfinal.
Qed.

Lemma same_batch_again_is_silent_witness :
  sent (trace (run Sample.env_dedup Cases.w_after_dedup)) = [].
Proof.
  apply (same_batch_again_is_silent Sample.env_dedup Sample.env_dedup
           Sample.w_seeded Cases.w_after_dedup
           [Sample.l1001; Sample.l9999; Sample.l2001]).
  - split; vm_compute; reflexivity.
  - discriminate.
  - reflexivity.
  - split; vm_compute; reflexivity.
Defined.

(** The fingerprint set left by a first run, or by a later run that
    completed. *)
Lemma run_fingerprint_set E (w : World) (allListings : list Listing) :
  fetched E w allListings →
  first_run w ∨ exit_code (run E w) = 0 →
  smembers (redis (final (run E w))) FINGERPRINT_KEY
    = smembers (redis w) FINGERPRINT_KEY ∪ list_to_set (getFingerprint <$> allListings).
Proof.
  intros Hf Hcase. destruct (decide (allListings = [])) as [->|Hne].
  { destruct (zero_listings_frame E w Hf) as (_ & -> & _).
    cbn. by rewrite (right_id_L ∅ (∪)). }
  destruct (decide (first_run w)) as [Hfirst|Hlater].
  { destruct (first_run_outcome E w _ Hf Hne Hfirst) as [-> _].
    unfold seeded_store. rewrite smembers_add_and_expire.
    by rewrite smembers_add_and_expire_ne. }
  destruct Hcase as [?|Hexit]; [done|].
  destruct (decide (newByIdListings allListings (smembers (redis w) REDIS_KEY) = []))
    as [Hnil|Hnew].
  { destruct (no_new_outcome E w _ Hf Hne Hlater Hnil) as (_ & -> & _).
    apply smembers_add_and_expire. }
  destruct (new_ids_outcome E w _ Hf Hlater Hnew)
    as (before & tail & d & _ & _ & _ & [(_ & _ & _ & ->)|(e & _ & Hone & _)]);
    [|congruence].
  rewrite smembers_add_and_expire. unfold ids_added.
  by rewrite smembers_add_and_expire_ne.
Qed.

(** X11.  Reposts are suppressed across runs: after a first run, or a
    later run that completed with exit code 0, no following run on the
    store it left sends a listing message for a listing whose fingerprint
    is that of a listing of the earlier batch, whatever its id. *)
Theorem repost_never_notified E1 E2 (w1 w2 : World) (batch1 batch2 : list Listing)
    (l1 l2 : Listing) :
  fetched E1 w1 batch1 →
  first_run w1 ∨ exit_code (run E1 w1) = 0 →
  redis w2 = redis (final (run E1 w1)) →
  fetched E2 w2 batch2 →
  l1 ∈ batch1 →
  MsgNewListing l2 ∈ sent (trace (run E2 w2)) →
  getFingerprint l2 ≠ getFingerprint l1.
Proof.
  intros Hf1 Hcase Hstore Hf2 Hl1 Hl2 Heq.
  destruct (dispatched_genuinely_new E2 w2 _ l2 Hf2 Hl2) as [_ Hgn].
  unfold genuinelyNew_of in Hgn. rewrite split_reposts_filter in Hgn.
  cbn [fst] in Hgn. apply list_elem_of_filter in Hgn as [Hfp _].
  apply Hfp. rewrite Hstore, (run_fingerprint_set E1 w1 batch1 Hf1 Hcase).
  apply elem_of_union_r, elem_of_list_to_set.
  rewrite Heq. by apply list_elem_of_fmap_2.
Qed.

Lemma repost_never_notified_witness :
  getFingerprint Sample.l2002 ≠ getFingerprint Sample.l2001.
Proof.
  apply (repost_never_notified Sample.env_dedup Cases.env_next
           Sample.w_seeded Cases.w_after_dedup
           [Sample.l1001; Sample.l9999; Sample.l2001]
           [Sample.l9999; Cases.l3001; Sample.l2002]).
  - split; vm_compute; reflexivity.
  - right. vm_compute. reflexivity.
  - reflexivity.
  - split; vm_compute; reflexivity.
  - apply (bool_decide_unpack _). vm_compute. exact I.
  - apply (bool_decide_unpack _). vm_compute. exact I.
Defined.

(** The scenario of the two witnesses above: the next run drops 9999
    (known id), suppresses 3001 (the title and price of 2001 up to case
    and blanks) and notifies 2002 only. *)
Example next_run_after_dedup :
  sent (trace (run Cases.env_next Cases.w_after_dedup)) = [MsgNewListing Sample.l2002].
Proof. vm_compute. reflexivity. Qed.

(** X12.  No run ever removes a member from the identity set or from the
    fingerprint set, whatever the environment answers and however the run
    ends. *)
Theorem run_never_forgets E (w : World) (k : Key) :
  smembers (redis w) k ⊆ smembers (redis (final (run E w))) k.
Proof.
  rewrite run_store_follows_trace.
  generalize (trace (run E w)) as t. generalize (redis w) as r.
  intros r t. revert r. induction t as [|e t IH]; intros r; [done|].
  cbn [replay fold_left]. etrans; [|apply IH].
  destruct e as [| | | | | |[k'|k' vals|k' seconds|k']]; try done;
    cbn [apply_event].
  - destruct k, k'; unfold smembers; cbn; set_solver.
  - unfold expire. destruct (key_get r k') as [s|] eqn:Hk; [|done].
    destruct k, k'; unfold smembers; cbn in *; rewrite ?Hk; done.
Qed.

(* ===================================================================== *)
(** * The error notification *)
(* ===================================================================== *)

Lemma has_char_app (c : Ascii.ascii) (s1 s2 : string) :
  has_char c (s1 +:+ s2) = has_char c s1 || has_char c s2.
Proof.
  induction s1 as [|d s1 IH]; [done|].
  change (String d s1 +:+ s2) with (String d (s1 +:+ s2)).
  cbn [has_char]. by rewrite IH, orb_assoc.
Qed.

(** Replacing [d] by a text without [c] keeps a text free of [c], and
    frees it of [c] when [d] is [c]. *)
Lemma has_char_replace (c d : Ascii.ascii) (r s : string) :
  has_char c r = false →
  c = d ∨ has_char c s = false →
  has_char c (Js.replace_char d r s) = false.
Proof.
  intros Hr Hs. induction s as [|x s IH]; [done|].
  cbn [Js.replace_char]. rewrite has_char_app.
  assert (c = d ∨ has_char c s = false) as Hs'.
  { destruct Hs as [?|Hs]; [by left|]. right.
    cbn [has_char] in Hs. by apply orb_false_elim in Hs as [_ ?]. }
  rewrite (IH Hs'), orb_false_r.
  destruct (decide (d = x)) as [<-|Hne]; [done|].
  cbn [has_char]. rewrite orb_false_r. apply bool_decide_eq_false.
  intros ->. destruct Hs as [?|Hs]; [done|].
  cbn [has_char] in Hs. apply orb_false_elim in Hs as [Hx _].
  by apply bool_decide_eq_false in Hx.
Qed.

(** X13.  The text [escapeHtml] returns holds no [<] and no [>], whatever
    the input; so the payload of the error notification cannot open or
    close a tag in Telegram's HTML parse mode. *)
Theorem escapeHtml_no_angle_brackets (text : string) :
  has_char Js.lt (escapeHtml text) = false ∧
  has_char Js.gt (escapeHtml text) = false.
Proof.
  unfold escapeHtml. split.
  - apply has_char_replace; [done|right].
    apply has_char_replace; [done|by left].
  - apply has_char_replace; [done|by left].
Qed.

(* ===================================================================== *)
(** * The message of a failed validation *)
(* ===================================================================== *)

Lemma startsWith_append (s p b : string) :
  Js.startsWith s p = true → Js.startsWith (s +:+ b) p = true.
Proof.
  revert s. induction p as [|a p IH]; intros s H; [by destruct (s +:+ b)|].
  destruct s as [|c s]; [done|].
  change (String c s +:+ b) with (String c (s +:+ b)).
  cbn [Js.startsWith] in *. destruct (decide (a = c)); [by apply IH|done].
Qed.

Lemma includes_append_l (s sub b : string) :
  Js.includes s sub = true → Js.includes (s +:+ b) sub = true.
Proof.
  induction s as [|c s IH]; intros H.
  - cbn [Js.includes] in H. rewrite orb_false_r in H.
    apply includes_startsWith. by apply (startsWith_append EmptyString).
  - cbn [Js.includes] in H. apply orb_true_iff in H as [H|H].
    + apply includes_startsWith. by apply startsWith_append.
    + change (String c s +:+ b) with (String c (s +:+ b)).
      cbn [Js.includes]. rewrite (IH H). apply orb_true_r.
Qed.

Lemma includes_join (sep x : string) (parts : list string) :
  x ∈ parts → Js.includes (Js.join sep parts) x = true.
Proof.
  induction parts as [|p parts IH]; [by intros ?%elem_of_nil|].
  intros [->|Hx]%elem_of_cons.
  - destruct parts as [|q parts]; [apply includes_self|].
    cbn [Js.join]. apply includes_append_l, includes_self.
  - destruct parts as [|q parts]; [by apply elem_of_nil in Hx|].
    cbn [Js.join]. by apply includes_append_r, includes_append_r, IH.
Qed.

(** X14.  When a required credential is unset or empty, validation throws
    the missing-variables error, whether or not an address list is set,
    and the message names that variable. *)
Theorem missing_credential_named E (w : World) (key : string) :
  key ∈ REQUIRED_ENV_VARS → env_unset E key = true →
  ∃ message,
    result (validateEnv E w) = Thrown message ∧
    Js.startsWith message "Missing required environment variables: " = true ∧
    Js.includes message key = true.
Proof.
  intros Hin Hunset. unfold validateEnv. cbv zeta.
  assert (key ∈ List.filter (env_unset E) REQUIRED_ENV_VARS) as Hmiss.
  { apply list_elem_of_In, filter_In. by rewrite <-list_elem_of_In. }
  destruct (List.filter (env_unset E) REQUIRED_ENV_VARS) as [|k ks] eqn:Hf;
    [by apply elem_of_nil in Hmiss|].
  cbn [length Nat.ltb Nat.leb]. eexists. split_and!; [done| |].
  - apply startsWith_app.
  - by apply includes_append_r, includes_join.
Qed.

Lemma missing_credential_named_witness :
  ∃ message,
    result (validateEnv Cases.env_unconfigured Sample.w_fresh) = Thrown message ∧
    Js.startsWith message "Missing required environment variables: " = true ∧
    Js.includes message "TELEGRAM_CHAT_ID" = true.
Proof.
  apply (missing_credential_named Cases.env_unconfigured Sample.w_fresh).
  - apply (bool_decide_unpack _). vm_compute. exact I.
  - reflexivity.
Defined.

(* ===================================================================== *)
(** * Reading the address lists back *)
(* ===================================================================== *)

Lemma append_assoc (a b c : string) : (a +:+ b) +:+ c = a +:+ b +:+ c.
Proof.
  induction a as [|x a IH]; [done|].
  change (String x a +:+ b) with (String x (a +:+ b)).
  change (String x (a +:+ b) +:+ c) with (String x ((a +:+ b) +:+ c)).
  by rewrite IH.
Qed.

Lemma append_empty_r (a : string) : a +:+ EmptyString = a.
Proof.
  induction a as [|x a IH]; [done|].
  change (String x a +:+ EmptyString) with (String x (a +:+ EmptyString)).
  by rewrite IH.
Qed.

(** A piece without the separator character is read through. *)
Lemma split_go_clean (u cur s : string) :
  has_char bar u = false →
  Js.split_go "|||" 0 cur (u +:+ s) = Js.split_go "|||" 0 (cur +:+ u) s.
Proof.
  revert cur. induction u as [|c u IH]; intros cur Hu.
  - by rewrite append_empty_r.
  - cbn [has_char] in Hu. apply orb_false_elim in Hu as [Hc Hu].
    apply bool_decide_eq_false in Hc.
    change (String c u +:+ s) with (String c (u +:+ s)).
    cbn [Js.split_go Js.startsWith].
    destruct (decide (Ascii.Ascii false false true true true true true false = c))
      as [Heq|_]; [by destruct Hc|].
    rewrite IH by done. by rewrite append_assoc.
Qed.

(** At the separator the piece read so far is given out. *)
Lemma split_go_sep (cur s : string) :
  Js.split_go "|||" 0 cur ("|||" +:+ s) = cur :: Js.split_go "|||" 0 EmptyString s.
Proof. destruct s; reflexivity. Qed.

Lemma split_join (u : string) (us : list string) (cur : string) :
  Forall (fun x => has_char bar x = false) (u :: us) →
  Js.split_go "|||" 0 cur (Js.join "|||" (u :: us)) = (cur +:+ u) :: us.
Proof.
  revert u cur. induction us as [|u2 us IH]; intros u cur [Hu Hus]%Forall_cons.
  - cbn [Js.join]. rewrite <-(append_empty_r u) at 1.
    by rewrite split_go_clean.
  - change (Js.join "|||" (u :: u2 :: us))
      with (u +:+ "|||" +:+ Js.join "|||" (u2 :: us)).
    rewrite split_go_clean, split_go_sep, IH by done. done.
Qed.

Lemma truthy_append (a b : string) : Js.truthy a = true → Js.truthy (a +:+ b) = true.
Proof. by destruct a. Qed.

Lemma trim_filter_clean (us : list string) :
  Forall clean_address us → List.filter Js.truthy (Js.trim <$> us) = us.
Proof.
  induction 1 as [|x xs (Hx & _ & Htrim) _ IH]; [done|].
  cbn [fmap list_fmap List.filter]. by rewrite Htrim, Hx, IH.
Qed.

Lemma split_urls_join (us : list string) :
  us ≠ [] → Forall clean_address us →
  Js.truthy (Js.join "|||" us) = true ∧ split_urls (Js.join "|||" us) = us.
Proof.
  intros Hne Hclean. destruct us as [|u us]; [done|]. split.
  - apply Forall_cons in Hclean as [(Hu & _ & _) _].
    destruct us; [done|]. cbn [Js.join]. by apply truthy_append.
  - unfold split_urls, Js.split. rewrite split_join.
    + change (EmptyString +:+ u) with u. by apply trim_filter_clean.
    + eapply Forall_impl; [exact Hclean|]. by intros x (_ & ? & _).
Qed.

Lemma push_urls_encoded E (urls us : list string) (key : string) :
  process_env E !! key = encode_addresses us → Forall clean_address us →
  push_urls E urls key = urls ++ us.
Proof.
  intros Hkey Hclean. unfold push_urls. rewrite Hkey.
  destruct us as [|u us]; [by rewrite app_nil_r|].
  cbn [encode_addresses].
  destruct (split_urls_join (u :: us)) as [-> ->]; done.
Qed.

(** X15.  The address lists are read back as they were written: when each
    of the three variables holds its addresses joined by the separator
    (or is unset for no address), and every address is non-empty, free of
    the separator character and of white space at its ends, [collectUrls]
    returns exactly those addresses, Njuskalo's first, then Index's, then
    Oglasnik's, each list in its order. *)
Theorem collectUrls_reads_back E (njuskalo index oglasnik : list string) :
  process_env E !! "NJUSKALO_URLS" = encode_addresses njuskalo →
  process_env E !! "INDEX_HR_URLS" = encode_addresses index →
  process_env E !! "OGLASNIK_HR_URLS" = encode_addresses oglasnik →
  Forall clean_address (njuskalo ++ index ++ oglasnik) →
  collectUrls E = njuskalo ++ index ++ oglasnik.
Proof.
  intros H1 H2 H3 Hclean.
  apply Forall_app in Hclean as [Hc1 Hclean].
  apply Forall_app in Hclean as [Hc2 Hc3].
  unfold collectUrls. cbv zeta.
  rewrite (push_urls_encoded E [] njuskalo "NJUSKALO_URLS") by done.
  rewrite (push_urls_encoded E _ index "INDEX_HR_URLS") by done.
  rewrite (push_urls_encoded E _ oglasnik "OGLASNIK_HR_URLS") by done.
  by rewrite <-app_assoc.
Qed.

Lemma collectUrls_reads_back_witness :
  collectUrls Cases.env_two_sites
  = [ "https://www.njuskalo.hr/prodaja-kuca";
      "https://www.njuskalo.hr/prodaja-zemljista" ]
      ++ [] ++ [ "https://oglasnik.hr/stanovi-prodaja" ].
Proof.
  apply (collectUrls_reads_back Cases.env_two_sites).
  - vm_compute. reflexivity.
  - vm_compute. reflexivity.
  - vm_compute. reflexivity.
  - repeat constructor; vm_compute; reflexivity.
Defined.

(* ===================================================================== *)
(** * What a fingerprint ignores *)
(* ===================================================================== *)

(** An ASCII blank is no continuation byte, and the bytes of a white
    space character after the first are. *)
Lemma is_space_continuation (c : Ascii.ascii) :
  Ascii.is_space c = true → Js.continuation c = false.
Proof. by destruct c as [[] [] [] [] [] [] [] []]. Qed.

Lemma ws2_continuation (c1 c2 : Ascii.ascii) :
  Js.ws2 c1 c2 = true → Js.continuation c1 = false ∧ Js.continuation c2 = true.
Proof.
  unfold Js.ws2, Js.continuation.
  intros [->%N.eqb_eq ->%N.eqb_eq]%andb_true_iff. done.
Qed.

Lemma ws3_continuation (c1 c2 c3 : Ascii.ascii) :
  Js.ws3 c1 c2 c3 = true →
  Js.continuation c1 = false ∧ Js.continuation c2 = true ∧ Js.continuation c3 = true.
Proof.
  unfold Js.ws3, Js.continuation.
  rewrite andb_false_iff, !N.leb_gt.
  repeat first [ rewrite orb_true_iff | rewrite andb_true_iff
               | rewrite N.eqb_eq | rewrite N.leb_le ].
  lia.
Qed.

Lemma ws2_continuation_2 (c1 c2 : Ascii.ascii) :
  Js.continuation c2 = false → Js.ws2 c1 c2 = false.
Proof.
  intros H. destruct (Js.ws2 c1 c2) eqn:Hws; [|done].
  apply ws2_continuation in Hws as [_ ?]. congruence.
Qed.

Lemma ws3_continuation_2 (c1 c2 c3 : Ascii.ascii) :
  Js.continuation c2 = false → Js.ws3 c1 c2 c3 = false.
Proof.
  intros H. destruct (Js.ws3 c1 c2 c3) eqn:Hws; [|done].
  apply ws3_continuation in Hws as (_ & ? & _). congruence.
Qed.

Lemma ws3_continuation_3 (c1 c2 c3 : Ascii.ascii) :
  Js.continuation c3 = false → Js.ws3 c1 c2 c3 = false.
Proof.
  intros H. destruct (Js.ws3 c1 c2 c3) eqn:Hws; [|done].
  apply ws3_continuation in Hws as (_ & _ & ?). congruence.
Qed.

Lemma ws_len_space (c : Ascii.ascii) (s : string) :
  Ascii.is_space c = true → Js.ws_len (String c s) = 1.
Proof. intros H. destruct s as [|? [|? ?]]; cbn [Js.ws_len]; by rewrite H. Qed.

Lemma starts_character_cons (c : Ascii.ascii) (s : string) :
  starts_character (String c s) = true → Js.continuation c = false.
Proof. cbn [starts_character]. by destruct (Js.continuation c). Qed.

(** White space starts with the first byte of a character. *)
Lemma ws_len_head (c : Ascii.ascii) (s : string) :
  Js.ws_len (String c s) ≠ 0 → Js.continuation c = false.
Proof.
  destruct s as [|c2 [|c3 s]]; cbn [Js.ws_len];
    destruct (Ascii.is_space c) eqn:Hc; try (intros _; by apply is_space_continuation);
    try done.
  - destruct (Js.ws2 c c2) eqn:H2; [|done].
    intros _. by apply ws2_continuation in H2 as [? _].
  - destruct (Js.ws2 c c2) eqn:H2; [intros _; by apply ws2_continuation in H2 as [? _]|].
    destruct (Js.ws3 c c2 c3) eqn:H3; [|done].
    intros _. by apply ws3_continuation in H3 as (? & _).
Qed.

(** Whether white space starts at the head of [String x a] does not
    depend on what follows [a] from a character on, and that white space
    lies within [String x a]. *)
Lemma ws_len_local (x : Ascii.ascii) (a t t' : string) :
  starts_character t = true → starts_character t' = true →
  Js.ws_len (String x (a +:+ t)) = Js.ws_len (String x (a +:+ t')) ∧
  Js.ws_len (String x (a +:+ t)) ≤ S (String.length a).
Proof.
  intros Ht Ht'. destruct a as [|y [|z a]].
  - change (EmptyString +:+ ?s) with s. cbn [String.length].
    assert (∀ u, starts_character u = true →
                 Js.ws_len (String x u) = if Ascii.is_space x then 1 else 0) as Hu.
    { intros [|h [|h2 u]] Hh; cbn [Js.ws_len]; [done| |];
        apply starts_character_cons in Hh;
        destruct (Ascii.is_space x); try done;
        by rewrite ?ws2_continuation_2, ?ws3_continuation_2. }
    rewrite !Hu by done. split; [done|]. destruct (Ascii.is_space x); lia.
  - change (String y EmptyString +:+ ?s) with (String y s). cbn [String.length].
    assert (∀ u, starts_character u = true →
                 Js.ws_len (String x (String y u))
                 = if Ascii.is_space x then 1 else if Js.ws2 x y then 2 else 0) as Hu.
    { intros [|h u] Hh; cbn [Js.ws_len]; [done|].
      apply starts_character_cons in Hh.
      destruct (Ascii.is_space x); [done|]. destruct (Js.ws2 x y); [done|].
      by rewrite ws3_continuation_3. }
    rewrite !Hu by done. split; [done|].
    destruct (Ascii.is_space x); [lia|]. destruct (Js.ws2 x y); lia.
  - change (String y (String z a) +:+ ?s) with (String y (String z (a +:+ s))).
    cbn [Js.ws_len String.length]. split; [done|].
    destruct (Ascii.is_space x); [lia|]. destruct (Js.ws2 x y); [lia|].
    destruct (Js.ws3 x y z); lia.
Qed.

(** A white space character is recognised whatever follows it. *)
Lemma ws_len_char (x b : string) :
  Js.white_space x = true → Js.ws_len (x +:+ b) = String.length x.
Proof.
  unfold Js.white_space. intros [Hpos Hlen%Nat.eqb_eq]%andb_true_iff.
  rewrite <-Hlen.
  destruct x as [|c1 [|c2 [|c3 [|c4 x]]]]; cbn [Js.ws_len String.length] in Hlen.
  - done.
  - change (String c1 EmptyString +:+ b) with (String c1 b).
    destruct (Ascii.is_space c1) eqn:H1; [|done].
    by rewrite !ws_len_space.
  - change (String c1 (String c2 EmptyString) +:+ b) with (String c1 (String c2 b)).
    destruct (Ascii.is_space c1) eqn:H1; [done|].
    destruct (Js.ws2 c1 c2) eqn:H2; [|done].
    destruct b; cbn [Js.ws_len]; by rewrite H1, H2.
  - change (String c1 (String c2 (String c3 EmptyString)) +:+ b)
      with (String c1 (String c2 (String c3 b))).
    done.
  - destruct (Ascii.is_space c1); [lia|]. destruct (Js.ws2 c1 c2); [lia|].
    destruct (Js.ws3 c1 c2 c3); lia.
Qed.

Lemma white_space_starts (x b : string) :
  Js.white_space x = true → starts_character (x +:+ b) = true.
Proof.
  intros Hx. pose proof (ws_len_char x b Hx) as Hlen.
  apply andb_true_iff in Hx as [Hpos%Nat.ltb_lt _].
  destruct x as [|c x]; [cbn in Hpos; lia|].
  change (String c x +:+ b) with (String c (x +:+ b)) in *.
  cbn [starts_character]. rewrite (ws_len_head c (x +:+ b)); [done|].
  rewrite Hlen. done.
Qed.

(** Two strings that differ after a common beginning [a], from a
    character on, are rewritten alike when their ends are. *)
Lemma replace_ws_go_local (r R1 R2 : string) :
  starts_character R1 = true → starts_character R2 = true →
  (∀ f, Js.replace_ws_go r 0 f R1 = Js.replace_ws_go r 0 f R2) →
  ∀ (a : string) (k : nat) (f : bool),
    k ≤ String.length a →
    Js.replace_ws_go r k f (a +:+ R1) = Js.replace_ws_go r k f (a +:+ R2).
Proof.
  intros H1 H2 Hbase. induction a as [|x a IH]; intros k f Hk.
  - change (EmptyString +:+ ?s) with s. cbn [String.length] in Hk.
    replace k with 0 by lia. apply Hbase.
  - change (String x a +:+ ?s) with (String x (a +:+ s)).
    cbn [String.length] in Hk. destruct k as [|k].
    + cbn [Js.replace_ws_go].
      destruct (ws_len_local x a R1 R2 H1 H2) as [Heq Hle]. rewrite <-Heq.
      destruct (Js.ws_len (String x (a +:+ R1))) as [|n]; by rewrite IH by lia.
    + cbn [Js.replace_ws_go]. apply IH. lia.
Qed.

Lemma replace_ws_go_skip (r a b : string) (f : bool) :
  Js.replace_ws_go r (String.length a) f (a +:+ b) = Js.replace_ws_go r 0 f b.
Proof.
  induction a as [|x a IH]; [done|].
  change (String x a +:+ b) with (String x (a +:+ b)).
  cbn [String.length Js.replace_ws_go]. apply IH.
Qed.

(** One white space character starts or continues a run. *)
Lemma replace_ws_go_char (r x b : string) (f : bool) :
  Js.white_space x = true →
  Js.replace_ws_go r 0 f (x +:+ b)
  = (if f then EmptyString else r) +:+ Js.replace_ws_go r 0 true b.
Proof.
  intros Hx. pose proof (ws_len_char x b Hx) as Hlen.
  apply andb_true_iff in Hx as [Hpos%Nat.ltb_lt _].
  destruct x as [|c x]; [cbn in Hpos; lia|].
  change (String c x +:+ b) with (String c (x +:+ b)) in *.
  cbn [Js.replace_ws_go]. rewrite Hlen. cbn [String.length].
  by rewrite replace_ws_go_skip.
Qed.

(** With the empty replacement it does not matter whether a run of white
    space is going on. *)
Lemma remove_ws_flag (k : nat) (f : bool) (s : string) :
  Js.replace_ws_go EmptyString k f s = Js.replace_ws_go EmptyString k false s.
Proof.
  revert k f. induction s as [|c s IH]; intros k f; [done|].
  cbn [Js.replace_ws_go]. destruct k as [|k]; [|apply IH].
  destruct (Js.ws_len (String c s)) as [|n]; [done|]. by destruct f.
Qed.

(** White space added between two characters is dropped with the rest. *)
Lemma remove_ws_insert (x a b : string) :
  Js.white_space x = true → starts_character b = true →
  Js.replace_ws (a +:+ x +:+ b) EmptyString = Js.replace_ws (a +:+ b) EmptyString.
Proof.
  intros Hx Hb. unfold Js.replace_ws.
  apply replace_ws_go_local; [by apply white_space_starts|done| |lia].
  intros f. rewrite replace_ws_go_char by done.
  rewrite (remove_ws_flag 0 f b), <-(remove_ws_flag 0 true b). by destruct f.
Qed.

(** White space next to white space changes nothing when runs are
    collapsed. *)
Lemma collapse_ws_double (r x y a b : string) :
  Js.white_space x = true → Js.white_space y = true →
  Js.replace_ws (a +:+ x +:+ y +:+ b) r = Js.replace_ws (a +:+ x +:+ b) r.
Proof.
  intros Hx Hy. unfold Js.replace_ws.
  apply replace_ws_go_local; [by apply white_space_starts..| |lia].
  intros f. by rewrite !replace_ws_go_char.
Qed.

(** One white space character is as good as another. *)
Lemma collapse_ws_any (r x y a b : string) :
  Js.white_space x = true → Js.white_space y = true →
  Js.replace_ws (a +:+ y +:+ b) r = Js.replace_ws (a +:+ x +:+ b) r.
Proof.
  intros Hx Hy. unfold Js.replace_ws.
  apply replace_ws_go_local; [by apply white_space_starts..| |lia].
  intros f. by rewrite !replace_ws_go_char.
Qed.

(** X16.  What repost detection tolerates.  The fingerprint of a listing
    depends on its lower-cased title and its price only (not on the id,
    the url, the location or the image).  It does not change when, in the
    lower-cased title, a white space character is added next to a white
    space character or is replaced by another one, or when a white space
    character is added between two characters of the price.  White space
    is any character of the class [\s], ASCII or not. *)
Theorem fingerprint_tolerance (l l' : Listing) :
  (Js.toLowerCase (title l') = Js.toLowerCase (title l) → price l' = price l →
     getFingerprint l' = getFingerprint l) ∧
  (∀ a b x y,
     Js.white_space x = true → Js.white_space y = true →
     Js.toLowerCase (title l) = a +:+ x +:+ b →
     (Js.toLowerCase (title l') = a +:+ x +:+ y +:+ b ∨
      Js.toLowerCase (title l') = a +:+ y +:+ b) →
     price l' = price l →
     getFingerprint l' = getFingerprint l) ∧
  (∀ a b x,
     Js.white_space x = true → starts_character b = true →
     price l = a +:+ b → price l' = a +:+ x +:+ b →
     Js.toLowerCase (title l') = Js.toLowerCase (title l) →
     getFingerprint l' = getFingerprint l).
Proof.
  unfold getFingerprint. split_and!.
  - by intros -> ->.
  - intros a b x y Hx Hy -> [->| ->] ->.
    + by rewrite collapse_ws_double.
    + by rewrite (collapse_ws_any _ x y).
  - intros a b x Hx Hb -> -> ->. by rewrite remove_ws_insert.
Qed.

Lemma fingerprint_tolerance_witness :
  getFingerprint Cases.l3002 = getFingerprint Sample.l2001.
Proof.
  destruct (fingerprint_tolerance Sample.l2001 Cases.l3002) as (_ & H & _).
  apply (H "bregana," "kuca, 200 m2" " " Cases.nbsp).
  - reflexivity.
  - reflexivity.
  - reflexivity.
  - right. reflexivity.
  - reflexivity.
Defined.

(* ===================================================================== *)
(** * Dispatch of a few listings *)
(* ===================================================================== *)

(** X17.  With fewer than five listings, dispatch cannot fail: whatever
    the transport answers to each POST, [notifyNewListings] returns
    normally, hands over exactly one message per listing in order (no
    summary), and follows each of them by the 500 ms delay when it was
    accepted and by a console error when it was rejected; a rejected
    message does not stop the ones after it. *)
Theorem few_listings_dispatch_total E (listings : list Listing) (w : World) :
  length listings < 5 →
  let o := notifyNewListings E listings w in
  result o = Ok tt ∧
  sent (events o) = MsgNewListing <$> listings ∧
  posts (world o) = posts w + length listings ∧
  events o = concat (imap (listing_events E (posts w)) listings).
Proof.
  intros Hlen o.
  destruct (notifyNewListings_small E listings w Hlen) as [Hres Hev].
  fold o in Hres, Hev. split_and!; [done| |  |done].
  - rewrite Hev. apply sent_each. intros. apply sent_listing_events.
  - unfold o, notifyNewListings.
    destruct (5 <=? length listings)%nat eqn:Hle; [apply Nat.leb_le in Hle; lia|].
    rewrite (bind_ok _ _ _ tt) by done. unfold after, prepend.
    cbn [world ret]. by destruct (notify_each_spec E listings w) as (_ & -> & _).
Qed.

Lemma few_listings_dispatch_total_witness :
  result (notifyNewListings Sample.env_down [Sample.l1001; Sample.l2001] Sample.w_seeded)
    = Ok tt.
Proof.
  apply (few_listings_dispatch_total Sample.env_down [Sample.l1001; Sample.l2001]
           Sample.w_seeded).
  cbn. lia.
Defined.

(* ===================================================================== *)
(** * The store interface ([store.ts]) *)
(* ===================================================================== *)

Lemma add_and_expire_twice (r : Redis) (k : Key) (vals : list string) :
  add_and_expire (add_and_expire r k vals) k vals = add_and_expire r k vals.
Proof.
  destruct k; unfold add_and_expire, expire, sadd, smembers; cbn;
    do 3 f_equal; by rewrite <-(assoc_L (∪)), (idemp_L (∪)).
Qed.

(** X18.  What [addSeenIds] does to the store: afterwards the identity
    key holds the old members together with [ids], and the fingerprint key
    is as it was; adding the same ids a second time changes nothing; for a
    non-empty [ids] the key exists afterwards ([hasSeenIds] answers true)
    with a time to live of 30 days; for an empty [ids] nothing is sent to
    Redis, so a key that was absent stays absent. *)
Theorem addSeenIds_effect (ids : list string) (w : World) :
  smembers (redis (world (addSeenIds ids w))) REDIS_KEY
    = smembers (redis w) REDIS_KEY ∪ list_to_set ids ∧
  seen_fingerprints (redis (world (addSeenIds ids w))) = seen_fingerprints (redis w) ∧
  redis (world ((addSeenIds ids ;; addSeenIds ids) w)) = redis (world (addSeenIds ids w)) ∧
  (ids ≠ [] →
     result ((addSeenIds ids ;; hasSeenIds) w) = Ok true ∧
     key_get (redis (world (addSeenIds ids w))) REDIS_KEY ≫= ttl = Some TTL_SECONDS) ∧
  (ids = [] →
     events (addSeenIds ids w) = [] ∧ world (addSeenIds ids w) = w).
Proof.
  destruct ids as [|x xs].
  - split_and!; try done.
    cbn. by rewrite (right_id_L ∅ (∪)).
  - split_and!; try done.
    erewrite bind_run by apply addSeenIds_cons.
    rewrite !addSeenIds_cons. cbn [prepend world set_redis redis].
    apply add_and_expire_twice.
Qed.

Lemma addSeenIds_effect_witness :
  result ((addSeenIds ["2001"] ;; hasSeenIds) Sample.w_fresh) = Ok true.
Proof.
  destruct (addSeenIds_effect ["2001"] Sample.w_fresh) as (_ & _ & _ & H & _).
  apply H. discriminate.
Defined.

(** X19.  Every write refreshes the expiry: after a first run, or a later
    run that completed, on a non-empty batch, the fingerprint key has a
    time to live of 30 days; and so has the identity key after a first
    run and after any later run that found an id it had not seen. *)
Theorem expiry_refreshed_by_writes E (w : World) (allListings : list Listing) :
  fetched E w allListings → allListings ≠ [] →
  (first_run w ∨ exit_code (run E w) = 0 →
     key_get (redis (final (run E w))) FINGERPRINT_KEY ≫= ttl = Some TTL_SECONDS) ∧
  (first_run w ∨ newByIdListings allListings (smembers (redis w) REDIS_KEY) ≠ [] →
     key_get (redis (final (run E w))) REDIS_KEY ≫= ttl = Some TTL_SECONDS).
Proof.
  intros Hf Hne.
  destruct (decide (first_run w)) as [Hfirst|Hlater].
  { destruct (first_run_outcome E w _ Hf Hne Hfirst) as [-> _].
    unfold seeded_store. split; intros _; [apply ttl_add_and_expire|].
    change (key_get (add_and_expire ?r FINGERPRINT_KEY ?v) REDIS_KEY)
      with (key_get r REDIS_KEY).
    apply ttl_add_and_expire. }
  destruct (decide (newByIdListings allListings (smembers (redis w) REDIS_KEY) = []))
    as [Hnil|Hnew].
  { destruct (no_new_outcome E w _ Hf Hne Hlater Hnil) as (_ & -> & _).
    split; [intros _; apply ttl_add_and_expire|]. by intros [?|?]. }
  destruct (new_ids_outcome E w _ Hf Hlater Hnew)
    as (before & tail & d & _ & _ & _ & [(_ & _ & _ & ->)|(e & _ & Hexit & _ & ->)]).
  - split; intros _; [apply ttl_add_and_expire|].
    change (key_get (add_and_expire ?r FINGERPRINT_KEY ?v) REDIS_KEY)
      with (key_get r REDIS_KEY).
    apply ttl_add_and_expire.
  - split; [intros [?|?]; [done|congruence]|].
    intros _. apply ttl_add_and_expire.
Qed.

Lemma expiry_refreshed_by_writes_witness :
  key_get (redis (final (run Sample.env_down Sample.w_seeded))) REDIS_KEY ≫= ttl
  = Some TTL_SECONDS.
Proof.
  destruct (expiry_refreshed_by_writes Sample.env_down Sample.w_seeded Sample.five)
    as [_ H].
  - split; vm_compute; reflexivity.
  - discriminate.
  - apply H. right. vm_compute. discriminate.
Defined.

(* ===================================================================== *)
(** * The error notification and the exit code *)
(* ===================================================================== *)

Lemma emits_impl {A} (P Q : Event → bool) (m : M A) :
  (∀ e, P e = true → Q e = true) → emits P m → emits Q m.
Proof. intros HPQ Hm w. eapply Forall_impl; [apply Hm|]. apply HPQ. Qed.

Lemma emits_send E (P : Event → bool) (m : Message) :
  P (EvSend m) = true → emits P (sendTelegramMessage E m).
Proof. intros H w. by repeat constructor. Qed.

Lemma emits_redis_do (P : Event → bool) (c : RedisCommand) (f : Redis → Redis) :
  P (EvRedis c) = true → emits P (redis_do c f).
Proof. intros H w. by repeat constructor. Qed.

Lemma emits_redis_smembers (P : Event → bool) (k : Key) :
  P (EvRedis (SMEMBERS k)) = true → emits P (redis_smembers k).
Proof. intros H w. by repeat constructor. Qed.

Lemma emits_redis_exists (P : Event → bool) (k : Key) :
  P (EvRedis (EXISTS k)) = true → emits P (redis_exists k).
Proof. intros H w. by repeat constructor. Qed.

Lemma notify_each_no_error E (listings : list Listing) :
  emits not_error_message (notify_each E listings).
Proof.
  induction listings as [|l listings IH]; cbn [notify_each];
    unfold notifyNewListing, delay, console_error; frame;
    solve [by apply emits_send | apply IH].
Qed.

Lemma main_no_error E : emits not_error_message (main E).
Proof.
  pose proof (notify_each_no_error E) as Heach.
  assert (emits not_error_message (scrape_all E (collectUrls E) [])) as Hfetch.
  { eapply emits_impl; [|apply scrape_all_frame]. by intros []. }
  unfold main, validateEnv, notifyZeroListings, hasSeenIds, addSeenIds,
    addSeenFingerprints, notifyInitialized, getSeenIds, getSeenFingerprints,
    notifyNewListings, redis_sadd, redis_expire, delay.
  frame;
    solve [ done | by apply emits_send | by apply emits_redis_do
          | by apply emits_redis_smembers | by apply emits_redis_exists ].
Qed.

Lemma sent_no_error (t : list Event) (s : string) :
  Forall (fun e => not_error_message e = true) t → MsgError s ∉ sent t.
Proof.
  intros Ht Hs. apply elem_of_sent in Hs.
  rewrite Forall_forall in Ht. by apply Ht in Hs.
Qed.

(** X20.  The error notification goes with the exit code: a run that
    ends with exit code 0 never hands an error notification to the
    transport; a run ends with exit code 1 exactly when [main] threw, and
    then the error notification for the escaped message of that error is
    handed over once, as the last message of the run. *)
Theorem error_notification_iff_failure E (w : World) :
  (exit_code (run E w) = 0 ∧ result (main E w) = Ok tt ∧
   ∀ s, MsgError s ∉ sent (trace (run E w))) ∨
  (exit_code (run E w) = 1 ∧
   ∃ e before,
     result (main E w) = Thrown e ∧
     sent (trace (run E w)) = before ++ [MsgError (escapeHtml e)] ∧
     ∀ s, MsgError s ∉ before).
Proof.
  pose proof (main_no_error E w) as Hmain.
  destruct (result (main E w)) as [[]|e] eqn:Hres.
  - left. rewrite (run_ok E w Hres). cbn [exit_code trace].
    split_and!; [done|done|]. intros s. by apply sent_no_error.
  - right. destruct (run_thrown E w e Hres) as (Hexit & _ & Htrace).
    split; [done|]. exists e, (sent (events (main E w))).
    split_and!; [done| |].
    + by rewrite Htrace, sent_app, sent_handler_events.
    + intros s. by apply sent_no_error.
Qed.
